(** * Dyad: a key-value store with coalesced change notification

    A shallow embedding of the TypeScript source of the [Store] class
    ([dispatch], [bind], [emit], [use], [initialize], [keys], [get], [set],
    the constructor, [getInstance] and [isPlainObject]) together with the
    properties of its mutation-and-notification engine.

    Modelling conventions.
    - JavaScript values are the inductive [Value]; objects carry a reference
      (their identity, compared by [===]), their prototype and their own
      properties.
    - An object used as a dictionary whose enumeration order is observable
      ([_model], the seed of [initialize], the argument of [bind]) is a
      [JsObject]: the association list of its own properties in creation
      order.  Dictionaries that are only looked up ([_prevValueByKey],
      [_emittingByKey], [_reducersByType]) are finite maps.
    - The store is embedded twice.  The first embedding keeps the own
      properties of the store's dictionaries only; it is the store as seen
      through keys and action types that are not names inherited from
      [Object.prototype], with values passed to [set] that are not
      functions and listeners that return.  The second, the module
      [Exact], keeps the dictionaries as objects with a prototype, in a
      heap that the callbacks of [set] and the instances of [Store] share:
      there [key in o] and [o[key]] find the inherited members, an
      assignment to [__proto__] replaces the prototype, a function passed
      to [set] is called, and the emitter runs the listeners.
    - Client code (reducers, middleware) is a tree of the store operations it
      performs, each node holding the continuation that receives the
      operation's result.
    - The microtask queue holds the callbacks that [set] passes to
      [Promise.resolve().then]; [drain] runs them, which is the next
      scheduling turn.  The trace [emitted] holds the calls of the
      emitter's [emit]. *)

From Stdlib Require Import Ascii String.
From stdpp Require Import gmap strings list sorting pretty.

Local Open Scope string_scope.
Local Open Scope list_scope.

(* ===================================================================== *)
(** * Values *)
(* ===================================================================== *)

(** [type Key = string | symbol] *)
Inductive Key : Type :=
| KStr (s : string)
| KSym (id : nat).

#[global] Instance Key_eq_dec : EqDecision Key.
Proof. solve_decision. Defined.

#[global] Instance Key_countable : Countable Key.
Proof.
  refine (inj_countable'
            (λ k, match k with KStr s => inl s | KSym n => inr n end)
            (λ x, match x with inl s => KStr s | inr n => KSym n end) _).
  by intros [].
Defined.

(** Own properties of an object, in creation order. *)
Definition JsObject (V : Type) : Type := list (Key * V).

#[warnings="-register-all"]
Inductive Value : Type :=
| VUndefined
| VNull
| VBool (b : bool)
| VNum (n : Z)
| VStr (s : string)
| VSym (id : nat)
| VFun (ref : nat)
| VObj (ref : nat) (proto : Value) (own : list (Key * Value)).

(** What a [throw] carries: [new Error(message)] or any other value. *)
Inductive Exn : Type :=
| Error (message : string)
| Thrown (v : Value).

(** A promise, by its state.  [Pending id] is the promise returned by
    [Promise.resolve().then(callback)] for the microtask [id];
    [Following x] is a promise resolved with the thenable [x], whose fate
    is that of [x]. *)
Inductive Promise : Type :=
| Resolved (v : Value)
| Rejected (e : Exn)
| Pending (id : nat)
| Following (thenable : Value).

(** How a call completes: it returns or it throws. *)
Inductive Completion (A : Type) : Type :=
| Return (a : A)
| Throw (e : Exn).
Arguments Return {A} a.
Arguments Throw {A} e.

(** The operator [===]. *)
Definition strict_eq (x y : Value) : bool :=
  match x, y with
  | VUndefined, VUndefined => true
  | VNull, VNull => true
  | VBool a, VBool b => bool_decide (a = b)
  | VNum a, VNum b => bool_decide (a = b)
  | VStr a, VStr b => bool_decide (a = b)
  | VSym a, VSym b => bool_decide (a = b)
  | VFun a, VFun b => bool_decide (a = b)
  | VObj a _ _, VObj b _ _ => bool_decide (a = b)
  | _, _ => false
  end.

(** The operator [typeof]. *)
Definition typeof (x : Value) : string :=
  match x with
  | VUndefined => "undefined"
  | VNull => "object"
  | VBool _ => "boolean"
  | VNum _ => "number"
  | VStr _ => "string"
  | VSym _ => "symbol"
  | VFun _ => "function"
  | VObj _ _ _ => "object"
  end.

(** [x != null] *)
Definition not_nullish (x : Value) : bool :=
  match x with
  | VUndefined | VNull => false
  | _ => true
  end.

(** [Object.getPrototypeOf], on objects. *)
Definition getPrototypeOf (x : Value) : Value :=
  match x with
  | VObj _ proto _ => proto
  | _ => VNull
  end.

(** The data properties of [Object.prototype]; its accessor [__proto__]
    is not one of them. *)
Definition Object_prototype_members : list (Key * Value) :=
  [(KStr "constructor", VFun 1); (KStr "hasOwnProperty", VFun 2);
   (KStr "isPrototypeOf", VFun 3); (KStr "propertyIsEnumerable", VFun 4);
   (KStr "toLocaleString", VFun 5); (KStr "toString", VFun 6);
   (KStr "valueOf", VFun 7); (KStr "__defineGetter__", VFun 13);
   (KStr "__defineSetter__", VFun 14); (KStr "__lookupGetter__", VFun 15);
   (KStr "__lookupSetter__", VFun 16)].

(** [Object.prototype] *)
Definition ObjectPrototype : Value := VObj 0 VNull Object_prototype_members.

(* ===================================================================== *)
(** * Own properties *)
(* ===================================================================== *)

Section JsObject.
Context {V : Type}.

Fixpoint obj_lookup (k : Key) (o : JsObject V) : option V :=
  match o with
  | [] => None
  | (k', v) :: o' => if decide (k' = k) then Some v else obj_lookup k o'
  end.

(** [o[k] = v]: an existing property keeps its place, a new one is
    created last. *)
Fixpoint obj_set (k : Key) (v : V) (o : JsObject V) : JsObject V :=
  match o with
  | [] => [(k, v)]
  | (k', v') :: o' =>
      if decide (k' = k) then (k, v) :: o' else (k', v') :: obj_set k v o'
  end.

Definition obj_has (k : Key) (o : JsObject V) : bool :=
  bool_decide (is_Some (obj_lookup k o)).

(** The property keys in creation order. *)
Definition creation_order (o : JsObject V) : list Key := o.*1.
End JsObject.

(** Decimal digits of an array index. *)
Definition digit_of_ascii (c : ascii) : option N :=
  let n := N_of_ascii c in
  if bool_decide (48 ≤ n ∧ n ≤ 57)%N then Some (n - 48)%N else None.

Fixpoint parse_digits (acc : N) (s : string) : option N :=
  match s with
  | EmptyString => Some acc
  | String c r =>
      match digit_of_ascii c with
      | Some d => parse_digits (10 * acc + d)%N r
      | None => None
      end
  end.

(** A string key is an array index when it is the canonical decimal
    numeral of an integer between 0 and 2^32 - 2. *)
Definition array_index (s : string) : option N :=
  match s with
  | EmptyString => None
  | String c r =>
      if bool_decide (c = "0"%char) then
        match r with EmptyString => Some 0%N | _ => None end
      else
        match parse_digits 0 s with
        | Some n => if bool_decide (n ≤ 4294967294)%N then Some n else None
        | None => None
        end
  end.

(** The order of array indices: by numeric value. *)
Definition index_order (a b : string) : Prop :=
  (default 0 (array_index a) ≤ default 0 (array_index b))%N.

#[global] Instance index_order_dec : RelDecision index_order.
Proof. intros a b. unfold index_order. apply _. Defined.

Section ObjectKeys.
Context {V : Type}.

(** The own string keys that are array indices, in creation order. *)
Fixpoint index_keys (o : JsObject V) : list string :=
  match o with
  | [] => []
  | (KStr s, _) :: o' =>
      match array_index s with
      | Some _ => s :: index_keys o'
      | None => index_keys o'
      end
  | (KSym _, _) :: o' => index_keys o'
  end.

(** The other own string keys, in creation order. *)
Fixpoint named_keys (o : JsObject V) : list string :=
  match o with
  | [] => []
  | (KStr s, _) :: o' =>
      match array_index s with
      | Some _ => named_keys o'
      | None => s :: named_keys o'
      end
  | (KSym _, _) :: o' => named_keys o'
  end.

(** [Object.keys(o)]: the own string keys, array indices first in
    ascending numeric order, then the other strings in creation order;
    symbols are not listed. *)
Definition Object_keys (o : JsObject V) : list string :=
  merge_sort index_order (index_keys o) ++ named_keys o.
End ObjectKeys.

(** The operator [in]: own or inherited. *)
Fixpoint has_property (k : Key) (x : Value) : bool :=
  match x with
  | VObj _ proto own => obj_has k own || has_property k proto
  | _ => false
  end.

(** Property read [x[k]]. *)
Fixpoint get_property (k : Key) (x : Value) : Value :=
  match x with
  | VObj _ proto own =>
      match obj_lookup k own with
      | Some v => v
      | None => get_property k proto
      end
  | _ => VUndefined
  end.

(** The names that an object literal [{}] inherits from
    [Object.prototype]. *)
Definition inherited_name (k : Key) : bool :=
  bool_decide (k = KStr "__proto__") || obj_has k Object_prototype_members.

(** The conversion of a value used as a property name.  An object is
    given the text that the [toString] of [Object.prototype] returns, a
    function the text of a native function, a number its decimal
    numeral, which is its text below 10^21.  [Exact.property_key] leaves
    the other cases to its environment. *)
Definition to_property_key (v : Value) : Key :=
  match v with
  | VUndefined => KStr "undefined"
  | VNull => KStr "null"
  | VBool true => KStr "true"
  | VBool false => KStr "false"
  | VNum n => KStr (pretty n)
  | VStr s => KStr s
  | VSym id => KSym id
  | VFun _ => KStr "function () { [native code] }"
  | VObj _ _ _ => KStr "[object Object]"
  end.

(** The loop of [isPlainObject]:
    [while ((nextPrototype = Object.getPrototypeOf(prototype)) !== null)
       prototype = nextPrototype].
    From a function the loop goes on to [Function.prototype] and ends at
    [Object.prototype]. *)
Fixpoint root_prototype (prototype : Value) : Value :=
  match prototype with
  | VObj _ nextPrototype _ =>
      if strict_eq nextPrototype VNull then prototype
      else root_prototype nextPrototype
  | VFun _ => ObjectPrototype
  | _ => prototype
  end.

(** [isPlainObject(x)] *)
Definition isPlainObject (x : Value) : bool :=
  if not_nullish x && bool_decide (typeof x = "object") then
    let prototype := getPrototypeOf x in
    if strict_eq prototype VNull then true
    else strict_eq (getPrototypeOf x) (root_prototype prototype)
  else false.

(* ===================================================================== *)
(** * Client code *)
(* ===================================================================== *)

(** [type EditValue = ((value: any) => any) | any]: a literal next value, or
    a function of the previous value, which may throw. *)
Inductive Edit : Type :=
| Lit (v : Value)
| Fn (f : Value → Completion Value).

(** What a middleware returns: a plain value or a promise. *)
Inductive Returned : Type :=
| RValue (v : Value)
| RPromise (p : Promise).

(** An object with a callable [then]. *)
Definition is_thenable (v : Value) : bool :=
  match v with
  | VObj _ _ _ => bool_decide (typeof (get_property (KStr "then") v) = "function")
  | _ => false
  end.

(** [Promise.resolve(x)]: a promise is returned as it is, a thenable is
    followed, any other value fulfils the new promise. *)
Definition Promise_resolve (x : Returned) : Promise :=
  match x with
  | RValue v => if is_thenable v then Following v else Resolved v
  | RPromise p => p
  end.

(** A reducer [(get, set, action) => void], after it has received its
    action: the calls it makes, in order.  [RDispatch] is a call of the
    store's [dispatch] from inside the reducer; its continuation is the call
    site, which receives the exception or the returned promise. *)
Inductive RProg : Type :=
| RReturn
| RThrow (e : Exn)
| RGet (k : Key) (cont : Value → RProg)
| RSet (k : Key) (edit : Edit) (cont : Promise → RProg)
| RDispatch (action : Value) (cont : Completion Promise → RProg).

(** A middleware [(action, next) => any], after it has received its
    action.  [MNext a] is the call [next(a)]. *)
Inductive MwProg : Type :=
| MReturn (r : Returned)
| MThrow (e : Exn)
| MGet (k : Key) (cont : Value → MwProg)
| MDispatch (action : Value) (cont : Completion Promise → MwProg)
| MNext (a : Value) (cont : Completion Promise → MwProg).

Definition Reducer : Type := Value → RProg.
Definition Middleware : Type := Value → MwProg.

(* ===================================================================== *)
(** * The store *)
(* ===================================================================== *)

(** The callback that [set] hands to [Promise.resolve().then].  It closes
    over [key] and over the objects [model] and [prevValueByKey] that the
    store held when [set] was called, identified by [task_epoch]. *)
Record Task : Type := mkTask {
  task_id : nat;
  task_epoch : nat;
  task_key : Key
}.

Record Store : Type := mkStore {
  _isDispatching : bool;
  _emittingByKey : gmap Key bool;
  _middleware : list Middleware;
  _model : JsObject Value;
  _prevValueByKey : gmap Key Value;
  _reducersByType : gmap Key (list Reducer);
  (** the number of [initialize] calls so far: which [_model] and
      [_prevValueByKey] objects are the current ones *)
  epoch : nat;
  (** the objects that [initialize] replaced; queued callbacks still hold
      them *)
  retired : gmap nat (JsObject Value * gmap Key Value);
  (** the queued callbacks of [set], oldest first *)
  microtasks : list Task;
  next_task : nat;
  (** how the promises returned by [set] were settled *)
  settled : gmap nat (Completion Value);
  (** the notifications delivered to listeners ([super.emit]), oldest
      first *)
  emitted : list (Key * Value)
}.

Definition with_isDispatching (b : bool) (st : Store) : Store :=
  mkStore b (_emittingByKey st) (_middleware st) (_model st)
    (_prevValueByKey st) (_reducersByType st) (epoch st) (retired st)
    (microtasks st) (next_task st) (settled st) (emitted st).

Definition with_emittingByKey (m : gmap Key bool) (st : Store) : Store :=
  mkStore (_isDispatching st) m (_middleware st) (_model st)
    (_prevValueByKey st) (_reducersByType st) (epoch st) (retired st)
    (microtasks st) (next_task st) (settled st) (emitted st).

Definition with_middleware (ms : list Middleware) (st : Store) : Store :=
  mkStore (_isDispatching st) (_emittingByKey st) ms (_model st)
    (_prevValueByKey st) (_reducersByType st) (epoch st) (retired st)
    (microtasks st) (next_task st) (settled st) (emitted st).

Definition with_model (o : JsObject Value) (st : Store) : Store :=
  mkStore (_isDispatching st) (_emittingByKey st) (_middleware st) o
    (_prevValueByKey st) (_reducersByType st) (epoch st) (retired st)
    (microtasks st) (next_task st) (settled st) (emitted st).

Definition with_prevValueByKey (m : gmap Key Value) (st : Store) : Store :=
  mkStore (_isDispatching st) (_emittingByKey st) (_middleware st) (_model st)
    m (_reducersByType st) (epoch st) (retired st)
    (microtasks st) (next_task st) (settled st) (emitted st).

Definition with_reducersByType (m : gmap Key (list Reducer)) (st : Store)
  : Store :=
  mkStore (_isDispatching st) (_emittingByKey st) (_middleware st) (_model st)
    (_prevValueByKey st) m (epoch st) (retired st)
    (microtasks st) (next_task st) (settled st) (emitted st).

Definition with_retired (m : gmap nat (JsObject Value * gmap Key Value))
    (st : Store) : Store :=
  mkStore (_isDispatching st) (_emittingByKey st) (_middleware st) (_model st)
    (_prevValueByKey st) (_reducersByType st) (epoch st) m
    (microtasks st) (next_task st) (settled st) (emitted st).

Definition with_microtasks (q : list Task) (st : Store) : Store :=
  mkStore (_isDispatching st) (_emittingByKey st) (_middleware st) (_model st)
    (_prevValueByKey st) (_reducersByType st) (epoch st) (retired st)
    q (next_task st) (settled st) (emitted st).

Definition with_settled (m : gmap nat (Completion Value)) (st : Store)
  : Store :=
  mkStore (_isDispatching st) (_emittingByKey st) (_middleware st) (_model st)
    (_prevValueByKey st) (_reducersByType st) (epoch st) (retired st)
    (microtasks st) (next_task st) m (emitted st).

Definition with_emitted (l : list (Key * Value)) (st : Store) : Store :=
  mkStore (_isDispatching st) (_emittingByKey st) (_middleware st) (_model st)
    (_prevValueByKey st) (_reducersByType st) (epoch st) (retired st)
    (microtasks st) (next_task st) (settled st) l.

(** [Promise.resolve().then(callback)]: queue the callback, return its
    promise. *)
Definition schedule (key : Key) (st : Store) : Promise * Store :=
  let id := next_task st in
  (Pending id,
   mkStore (_isDispatching st) (_emittingByKey st) (_middleware st)
     (_model st) (_prevValueByKey st) (_reducersByType st) (epoch st)
     (retired st) (microtasks st ++ [mkTask id (epoch st) key])
     (S id) (settled st) (emitted st)).

(** A property read [o[k]] on a dictionary. *)
Definition obj_get (k : Key) (o : JsObject Value) : Value :=
  default VUndefined (obj_lookup k o).

(** ** Model *)

(** [get = (key) => this._model[key]], for the own properties of the
    model; [Exact.get] reads the inherited ones too. *)
Definition get (key : Key) (st : Store) : Value :=
  obj_get key (_model st).

(** [keys() { return Object.keys(this._model) }] *)
Definition keys (st : Store) : list string :=
  Object_keys (_model st).

(** [edit] applied as [typeof edit === 'function' ? edit(value) : edit]:
    [Lit] holds a value that is not a function, [Fn] a function.
    [Exact.apply_edit] calls a function value held by [Lit] too. *)
Definition apply_edit (edit : Edit) (value : Value) : Completion Value :=
  match edit with
  | Lit v => Return v
  | Fn f => f value
  end.

(** [set = (key, edit) => ...], up to the callback it queues, for a [key]
    that the dictionaries do not inherit; [Exact.set] is [set] for any
    key. *)
Definition set (key : Key) (edit : Edit) (st : Store) : Promise * Store :=
  let value := obj_get key (_model st) in
  let st :=
    if decide (is_Some (_prevValueByKey st !! key)) then st
    else with_prevValueByKey (<[key := value]> (_prevValueByKey st)) st in
  match apply_edit edit value with
  | Return v => schedule key (with_model (obj_set key v (_model st)) st)
  | Throw error => (Rejected error, st)
  end.

(** ** Events *)

(** The text of [`${key}`]; a symbol has none. *)
Definition key_text (key : Key) : Completion string :=
  match key with
  | KStr s => Return s
  | KSym _ => Throw (Error "Cannot convert a Symbol value to a string")
  end.

(** [emit(key, nextValue)]: refused unless [set]'s callback armed the key;
    otherwise the listeners of [key] are notified with [nextValue], and
    return.  [Exact.emit] has the inherited members of [_emittingByKey]
    and the listeners that throw. *)
Definition emit (key : Key) (nextValue : Value) (st : Store)
  : Completion unit * Store :=
  if negb (default false (_emittingByKey st !! key)) then
    match key_text key with
    | Return s =>
        (Throw (Error ("Can’t emit key '" +:+ s +:+ "' without setting it")), st)
    | Throw e => (Throw e, st)
    end
  else (Return (), with_emitted (emitted st ++ [(key, nextValue)]) st).

(** The objects [model] and [prevValueByKey] that a callback captured. *)
Definition captured (ep : nat) (st : Store)
  : JsObject Value * gmap Key Value :=
  if decide (ep = epoch st) then (_model st, _prevValueByKey st)
  else default ([], ∅) (retired st !! ep).

(** [delete prevValueByKey[key]] on the captured object. *)
Definition delete_prev (ep : nat) (key : Key) (st : Store) : Store :=
  if decide (ep = epoch st) then
    with_prevValueByKey (delete key (_prevValueByKey st)) st
  else
    match retired st !! ep with
    | Some (model, prev) =>
        with_retired (<[ep := (model, delete key prev)]> (retired st)) st
    | None => st
    end.

Definition settle (id : nat) (c : Completion Value) (st : Store) : Store :=
  with_settled (<[id := c]> (settled st)) st.

(** The callback queued by [set], run in the next turn, for a key that
    the dictionaries do not inherit and listeners that return;
    [Exact.run_task] is the callback for any key and any listeners. *)
Definition run_task (t : Task) (st : Store) : Store :=
  let key := task_key t in
  let '(model, prevValueByKey) := captured (task_epoch t) st in
  let nextValue := obj_get key model in
  match prevValueByKey !! key with
  | Some prevValue =>
      let st := delete_prev (task_epoch t) key st in
      if negb (strict_eq nextValue prevValue) then
        let st := with_emittingByKey (<[key := true]> (_emittingByKey st)) st in
        let '(c, st) := emit key nextValue st in
        let st := with_emittingByKey (<[key := false]> (_emittingByKey st)) st in
        match c with
        | Return _ => settle (task_id t) (Return nextValue) st
        | Throw e => settle (task_id t) (Throw e) st
        end
      else settle (task_id t) (Return nextValue) st
  | None => settle (task_id t) (Return nextValue) st
  end.

(** The next scheduling turn: every queued callback runs, oldest first. *)
Definition drain (st : Store) : Store :=
  foldl (λ s t, run_task t s) (with_microtasks [] st) (microtasks st).

(** ** Initialisation and registration *)

(** [initialize(model?)] *)
Definition initialize (model : option (JsObject Value)) (st : Store) : Store :=
  let seeded :=
    match model with
    | Some model =>
        foldl (λ m key, obj_set (KStr key) (obj_get (KStr key) model) m)
          [] (Object_keys model)
    | None => []
    end in
  mkStore false ∅ [] seeded ∅ ∅ (S (epoch st))
    (<[epoch st := (_model st, _prevValueByKey st)]> (retired st))
    (microtasks st) (next_task st) (settled st) (emitted st).

(** [bind(actions)], for action types that [_reducersByType] does not
    inherit; [Exact.bind] is [bind] for any type. *)
Definition bind (actions : JsObject Reducer) (st : Store) : Store :=
  with_reducersByType
    (foldl (λ m type,
              match obj_lookup (KStr type) actions with
              | Some reducer =>
                  <[KStr type := default [] (m !! KStr type) ++ [reducer]]> m
              | None => m
              end)
       (_reducersByType st) (Object_keys actions)) st.

(** [use(middleware)] *)
Definition use (middleware : Middleware) (st : Store) : Store :=
  with_middleware (_middleware st ++ [middleware]) st.

(* ===================================================================== *)
(** * Actions *)
(* ===================================================================== *)

(** The store's [dispatch] as client code sees it; [None] when the nesting
    of dispatches exceeds the bound of [dispatch] below. *)
Definition Dispatch : Type :=
  Value → Store → option (Completion Promise * Store).

(** The [next] capability handed to a middleware.  The closure variable
    [index] of the enclosing [dispatch] is threaded next to the store. *)
Definition Next : Type :=
  Value → Z → Store → option (Completion Promise * Z * Store).

(** A reducer runs: [reducer(self.get, self.set, nextAction)]. *)
Fixpoint exec_reducer (dispatch : Dispatch) (p : RProg) (st : Store)
  : option (Completion unit * Store) :=
  match p with
  | RReturn => Some (Return (), st)
  | RThrow e => Some (Throw e, st)
  | RGet k cont => exec_reducer dispatch (cont (get k st)) st
  | RSet k edit cont =>
      let '(promise, st) := set k edit st in
      exec_reducer dispatch (cont promise) st
  | RDispatch action cont =>
      match dispatch action st with
      | Some (c, st) => exec_reducer dispatch (cont c) st
      | None => None
      end
  end.

(** [reducers.forEach((reducer) => {
       try { self._isDispatching = true; reducer(...) }
       finally { self._isDispatching = false } })] *)
Fixpoint forEach_reducer (dispatch : Dispatch) (reducers : list Reducer)
    (nextAction : Value) (st : Store) : option (Completion unit * Store) :=
  match reducers with
  | [] => Some (Return (), st)
  | reducer :: reducers =>
      match exec_reducer dispatch (reducer nextAction)
              (with_isDispatching true st) with
      | Some (c, st) =>
          let st := with_isDispatching false st in
          match c with
          | Return _ => forEach_reducer dispatch reducers nextAction st
          | Throw e => Some (Throw e, st)
          end
      | None => None
      end
  end.

(** The branch [if (!nextMiddleware) { ... }] of [call], for an action
    type that [_reducersByType] does not inherit; [Exact.terminal] is the
    branch for any type. *)
Definition terminal (dispatch : Dispatch) (nextAction : Value) (st : Store)
  : option (Completion Promise * Store) :=
  if negb (isPlainObject nextAction) then
    Some (Return (Rejected (Error "`action` is not a plain object")), st)
  else if negb (has_property (KStr "type") nextAction) then
    Some (Return (Rejected
            (Error "`action` doesn’t include a `type` property")), st)
  else
    let type := get_property (KStr "type") nextAction in
    let reducers :=
      default [] (_reducersByType st !! to_property_key type) in
    match forEach_reducer dispatch reducers nextAction st with
    | Some (Return _, st) =>
        Some (Return (Promise_resolve (RValue nextAction)), st)
    | Some (Throw e, st) => Some (Throw e, st)
    | None => None
    end.

(** A middleware runs: [nextMiddleware(nextAction, next)]. *)
Fixpoint exec_middleware (dispatch : Dispatch) (next : Next) (p : MwProg)
    (index : Z) (st : Store) : option (Completion Returned * Z * Store) :=
  match p with
  | MReturn r => Some (Return r, index, st)
  | MThrow e => Some (Throw e, index, st)
  | MGet k cont => exec_middleware dispatch next (cont (get k st)) index st
  | MDispatch action cont =>
      match dispatch action st with
      | Some (c, st) => exec_middleware dispatch next (cont c) index st
      | None => None
      end
  | MNext a cont =>
      match next a index st with
      | Some (c, index, st) => exec_middleware dispatch next (cont c) index st
      | None => None
      end
  end.

(** The local function [call(nextIndex, nextAction)] of [dispatch].
    [remaining] is the chain from [nextIndex] on, so that
    [middleware[nextIndex]] is its head, if any.  The capability given to
    the middleware is [() => call(nextIndex, nextAction)]. *)
Fixpoint call (dispatch : Dispatch) (remaining : list Middleware)
    (nextIndex : nat) (nextAction : Value) (index : Z) (st : Store)
    {struct remaining} : option (Completion Promise * Z * Store) :=
  if bool_decide (Z.of_nat nextIndex ≤ index)%Z then
    Some (Return (Rejected (Error "`next()` called more than once")),
          index, st)
  else
    let index := Z.of_nat nextIndex in
    match remaining with
    | [] =>
        match terminal dispatch nextAction st with
        | Some (c, st) => Some (c, index, st)
        | None => None
        end
    | nextMiddleware :: remaining =>
        let nextIndex := S nextIndex in
        match exec_middleware dispatch
                (λ _, call dispatch remaining nextIndex nextAction)
                (nextMiddleware nextAction) index st with
        | Some (Return r, index, st) =>
            Some (Return (Promise_resolve r), index, st)
        | Some (Throw error, index, st) =>
            Some (Return (Rejected error), index, st)
        | None => None
        end
    end.

(** [dispatch(action)].  [depth] bounds how deeply client code may nest
    calls of [dispatch]. *)
Fixpoint dispatch (depth : nat) (action : Value) (st : Store)
  : option (Completion Promise * Store) :=
  if _isDispatching st then
    Some (Throw (Error "Reducers can’t dispatch actions"), st)
  else
    match depth with
    | O => None
    | S depth =>
        match call (dispatch depth) (_middleware st) 0 action (-1) st with
        | Some (c, _, st) => Some (c, st)
        | None => None
        end
    end.

(* ===================================================================== *)
(** * A store before [initialize] *)
(* ===================================================================== *)

(** A [Store] object whose fields have not been assigned yet. *)
Definition fresh_object : Store :=
  mkStore false ∅ [] [] ∅ ∅ 0 ∅ [] 0 ∅ [].

(* ===================================================================== *)
(** * Turns: notions used by the properties *)
(* ===================================================================== *)

(** Calls of [set] issued one after the other in the current turn. *)
Definition run_sets (calls : list (Key * Edit)) (st : Store) : Store :=
  foldl (λ s c, (set c.1 c.2 s).2) st calls.

(** The beginning of a turn: no callback is queued, and a pending-write
    record left behind by an earlier turn holds the model's value. *)
Definition turn_start (st : Store) : Prop :=
  microtasks st = [] ∧
  ∀ k v, _prevValueByKey st !! k = Some v → get k st = v.



(** The pending-write record of [key] after [set] has looked at it. *)
Definition snapshot (key : Key) (st : Store) : gmap Key Value :=
  if decide (is_Some (_prevValueByKey st !! key)) then _prevValueByKey st
  else <[key := get key st]> (_prevValueByKey st).



(** Literal values written to one key, one call after the other. *)
Definition set_each (key : Key) (vs : list Value) : list (Key * Edit) :=
  (λ v, (key, Lit v)) <$> vs.


(* ===================================================================== *)
(** * Dispatch: notions used by the properties *)
(* ===================================================================== *)

(** What [dispatch] does while a reducer runs. *)
Definition reentrant : Dispatch :=
  λ _ st, Some (Throw (Error "Reducers can’t dispatch actions"), st).

(** A dispatcher that leaves the flag reset. *)
Definition keeps_idle (d : Dispatch) : Prop :=
  ∀ a st c st',
    _isDispatching st = false → d a st = Some (c, st') →
    _isDispatching st' = false.

(** The same, of a [next] capability. *)
Definition next_keeps_idle (next : Next) : Prop :=
  ∀ a index st c index' st',
    _isDispatching st = false → next a index st = Some (c, index', st') →
    _isDispatching st' = false.

(** The [next] capability once the chain has moved past its position. *)
Definition rejected_next : Next :=
  λ _ index st,
    Some (Return (Rejected (Error "`next()` called more than once")),
          index, st).

(** A [next] capability that does not decrease [index]. *)
Definition next_advances (next : Next) : Prop :=
  ∀ a index st c index' st',
    next a index st = Some (c, index', st') → (index ≤ index')%Z.

(** [(action, next) => next(transform(action))] *)
Definition passes (transform : Value → Value) : Middleware :=
  λ action,
    MNext (transform action)
      (λ c, match c with
            | Return promise => MReturn (RPromise promise)
            | Throw e => MThrow e
            end).

(** The number of times a middleware invokes [next], whatever the
    operations return to it. *)
Inductive calls_next : nat → MwProg → Prop :=
| calls_next_return r : calls_next 0 (MReturn r)
| calls_next_throw e : calls_next 0 (MThrow e)
| calls_next_get n k cont :
    (∀ v, calls_next n (cont v)) → calls_next n (MGet k cont)
| calls_next_dispatch n action cont :
    (∀ c, calls_next n (cont c)) → calls_next n (MDispatch action cont)
| calls_next_next n a cont :
    (∀ c, calls_next n (cont c)) → calls_next (S n) (MNext a cont).

(** [try { ... } catch (error) { return Promise.reject(error) }] *)
Definition caught (c : Completion Promise) : Completion Promise :=
  match c with
  | Return promise => Return promise
  | Throw error => Return (Rejected error)
  end.

(** ** Example values *)

(** An object literal [{...}]. *)
Definition literal (ref : nat) (own : list (Key * Value)) : Value :=
  VObj ref ObjectPrototype own.

(** [Date.prototype] *)
Definition DatePrototype : Value :=
  VObj 8 ObjectPrototype
    [(KStr "constructor", VFun 9); (KStr "getTime", VFun 10)].

(** [new Date()] *)
Definition a_date : Value := VObj 100 DatePrototype [].

(** An instance of [class Point { x; type }]. *)
Definition a_class_instance : Value :=
  VObj 101 (VObj 11 ObjectPrototype [(KStr "constructor", VFun 12)])
    [(KStr "x", VNum 1); (KStr "type", VStr "X")].

(** [{type: 'A'}] and [{type: 'B'}] *)
Definition action_A : Value := literal 102 [(KStr "type", VStr "A")].
Definition action_B : Value := literal 103 [(KStr "type", VStr "B")].

(** The store of a module that has just been loaded. *)
Definition new_store : Store := initialize None fresh_object.

(** [(_, set, action) => set('seen', action)] *)
Definition records : Reducer :=
  λ action, RSet (KStr "seen") (Lit action) (λ _, RReturn).

(** [(action, next) => { next(action) }]: [next] is invoked once, its
    result is dropped. *)
Definition drops_result : Middleware :=
  λ action, MNext action (λ _, MReturn (RValue VUndefined)).

(** [(action, next) => action]: the middleware returns the action it was
    given, without calling [next]. *)
Definition echoes : Middleware := λ action, MReturn (RValue action).

(** [(action, next) => typeof action === 'function' ? undefined : next(action)] *)
Definition thunk : Middleware :=
  λ action,
    if bool_decide (typeof action = "function") then MReturn (RValue VUndefined)
    else passes (λ a, a) action.

(* ===================================================================== *)
(** * Keys: notions used by the properties *)
(* ===================================================================== *)

(** The string keys that are not array indices, as they appear in a list
    of keys. *)
Definition names_of (ks : list Key) : list string :=
  omap (λ k, match k with
             | KStr s =>
                 match array_index s with Some _ => None | None => Some s end
             | KSym _ => None
             end) ks.

(** The model after [initialize({b: 1})] and then [set('1', 2)]. *)
Definition model_b_then_1 : Store :=
  (set (KStr "1") (Lit (VNum 2))
     (initialize (Some [(KStr "b", VNum 1)]) fresh_object)).2.

(* ===================================================================== *)
(** * Example stores *)
(* ===================================================================== *)

(** [initialize({counter: 0})] *)
Definition counter_store : Store :=
  initialize (Some [(KStr "counter", VNum 0)]) fresh_object.


(** [() => { throw new Error('boom') }], as a reducer. *)
Definition throws : Reducer := λ _, RThrow (Error "boom").

(** [(_, set) => set('after', true)] *)
Definition marks : Reducer :=
  λ _, RSet (KStr "after") (Lit (VBool true)) (λ _, RReturn).

(** Three reducers bound to the type ["A"], in three calls of [bind]. *)
Definition three_reducers : Store :=
  bind [(KStr "A", marks)]
    (bind [(KStr "A", throws)] (bind [(KStr "A", records)] new_store)).

(** [three_reducers] once the first reducer of [action_A] has run. *)
Definition after_records : Store :=
  with_isDispatching false
    (set (KStr "seen") (Lit action_A)
       (with_isDispatching true three_reducers)).2.

(** A middleware that calls [next] twice: the second call is rejected,
    and so is the promise that [dispatch] returns. *)
Definition calls_twice : Middleware :=
  λ action,
    MNext action (λ _,
      MNext action (λ c,
        match c with
        | Return promise => MReturn (RPromise promise)
        | Throw e => MThrow e
        end)).

(** One middleware that replaces the action, one reducer bound to ["A"]. *)
Definition replacing_store : Store :=
  bind [(KStr "A", records)] (use (passes (λ _, action_B)) new_store).

(** [(prevValue) => prevValue + delta] *)
Definition adds (delta : Z) : Value → Completion Value :=
  λ prevValue,
    match prevValue with
    | VNum n => Return (VNum (n + delta))
    | _ => Throw (Error "not a number")
    end.

(** [bind({DECREMENT: (_, set) => set('counter', (prevValue) => --prevValue),
           INCREMENT: (_, set) => set('counter', (prevValue) => ++prevValue)})]
    on [initialize({counter: 0})]. *)
Definition counting_store : Store :=
  bind [(KStr "DECREMENT",
         λ _, RSet (KStr "counter") (Fn (adds (-1))) (λ _, RReturn));
        (KStr "INCREMENT",
         λ _, RSet (KStr "counter") (Fn (adds 1)) (λ _, RReturn))]
    counter_store.

Definition INCREMENT : Value := literal 110 [(KStr "type", VStr "INCREMENT")].
Definition DECREMENT : Value := literal 111 [(KStr "type", VStr "DECREMENT")].

(** Calls of [dispatch] issued one after the other in the current turn,
    their results dropped. *)
Definition dispatch_each (actions : list Value) (st : Store) : option Store :=
  foldl (λ s action, s ≫= λ s, snd <$> dispatch 1 action s) (Some st) actions.

(** [initialize({b: 1, a: 2})] *)
Definition named_store : Store :=
  initialize (Some [(KStr "b", VNum 1); (KStr "a", VNum 2)]) fresh_object.

(* ===================================================================== *)
(** * Turns and reachable stores: notions used by the properties *)
(* ===================================================================== *)

(** A dispatcher that keeps a property of the store. *)
Definition keeps (P : Store → Prop) (d : Dispatch) : Prop :=
  ∀ a st c st', P st → d a st = Some (c, st') → P st'.

(** The same, of a [next] capability. *)
Definition next_keeps (P : Store → Prop) (next : Next) : Prop :=
  ∀ a index st c index' st',
    P st → next a index st = Some (c, index', st') → P st'.

(** [st] is reached from [st0] by the synchronous part of a turn: calls of
    [set] and calls of [dispatch] that have returned or thrown. *)
Inductive same_turn (st0 : Store) : Store → Prop :=
| same_turn_refl : same_turn st0 st0
| same_turn_set st key edit :
    same_turn st0 st → same_turn st0 (set key edit st).2
| same_turn_dispatch st depth action c st' :
    same_turn st0 st → dispatch depth action st = Some (c, st') →
    same_turn st0 st'.

(** The stores that a client reaches from the store of the loaded module
    with the store's methods, the [set] capability of its reducers, and
    the passing of turns. *)
Inductive reachable : Store → Prop :=
| reachable_new : reachable new_store
| reachable_initialize model st :
    reachable st → reachable (initialize model st)
| reachable_bind actions st : reachable st → reachable (bind actions st)
| reachable_use middleware st : reachable st → reachable (use middleware st)
| reachable_set key edit st : reachable st → reachable (set key edit st).2
| reachable_dispatch depth action st c st' :
    reachable st → dispatch depth action st = Some (c, st') → reachable st'
| reachable_emit key nextValue st :
    reachable st → reachable (emit key nextValue st).2
| reachable_drain st : reachable st → reachable (drain st).

(** No key is armed for emission. *)
Definition disarmed (st : Store) : Prop :=
  ∀ k, default false (_emittingByKey st !! k) = false.

(** Three reducers bound to ["A"], a middleware that passes the action
    on, then [thunk]. *)
Definition thunk_store : Store :=
  use thunk (use (passes (λ a, a)) three_reducers).

(** [counting_store] after [INCREMENT], [INCREMENT] and [DECREMENT] have
    been dispatched in one turn. *)
Definition counted : Store :=
  default counting_store
    (dispatch_each [INCREMENT; INCREMENT; DECREMENT] counting_store).

(** [three_reducers] behind one middleware that passes the action on. *)
Definition guarded_reducers : Store :=
  use (passes (λ a, a)) three_reducers.

(* ===================================================================== *)
(** * The store over objects *)
(* ===================================================================== *)

(** The store's dictionaries are object literals [{}]: they inherit the
    members of [Object.prototype], which [key in o] and [o[key]] find, and
    an assignment to [__proto__] replaces their prototype.  The callbacks
    of [set] hold the very objects [model] and [prevValueByKey] that the
    store held when [set] was called.  In this module the dictionaries are
    objects with a prototype, [_model] and [_prevValueByKey] are addresses
    in a heap of such objects, and the store has the listeners of its
    event emitter.  [_emittingByKey] and [_reducersByType] are kept in the
    store: no callback holds them, and no assignment that the store makes
    to them replaces their prototype. *)
Module Exact.

(** What a property lookup along a prototype chain finds: a data property,
    the accessor [__proto__] of [Object.prototype], or nothing. *)
Inductive Found : Type :=
| Data (v : Value)
| Accessor
| Missing.

(** What the embedding leaves to its environment. *)
Record Environment : Type := mkEnvironment {
  (** a function value called with one argument *)
  functions : nat → Value → Completion Value;
  (** a property looked up from a function object *)
  function_find : nat → Key → Found;
  (** the conversion to a property name of a value that is not a
      primitive, or of a number that is printed with an exponent *)
  coerce : Value → Completion Key;
  (** what the event emitter throws for an ['error'] event that has no
      listener *)
  unhandled : Value → Exn
}.

(** An object used as a dictionary: its own properties in creation order,
    and its prototype. *)
Record Dict : Type := mkDict {
  own : JsObject Value;
  proto : Value
}.

(** [{}] *)
Definition empty_object : Dict := mkDict [] ObjectPrototype.

Section Objects.
Variable env : Environment.

(** The lookup of [k] from the object [x] on. *)
Fixpoint find (k : Key) (x : Value) : Found :=
  match x with
  | VObj _ next members =>
      match obj_lookup k members with
      | Some v => Data v
      | None =>
          if strict_eq x ObjectPrototype && bool_decide (k = KStr "__proto__")
          then Accessor
          else find k next
      end
  | VFun ref => function_find env ref k
  | _ => Missing
  end.

(** [k in d] *)
Definition dict_has (k : Key) (d : Dict) : bool :=
  match obj_lookup k (own d) with
  | Some _ => true
  | None => match find k (proto d) with Missing => false | _ => true end
  end.

(** [d[k]] *)
Definition dict_get (k : Key) (d : Dict) : Value :=
  match obj_lookup k (own d) with
  | Some v => v
  | None =>
      match find k (proto d) with
      | Data v => v
      | Accessor => proto d
      | Missing => VUndefined
      end
  end.

(** What the setter of [__proto__] accepts as a prototype. *)
Definition object_or_null (v : Value) : bool :=
  match v with
  | VObj _ _ _ | VFun _ | VNull => true
  | _ => false
  end.

(** [d[k] = v]: an own property is updated; otherwise, when the lookup
    finds the accessor [__proto__], its setter replaces the prototype of
    [d] by an object or [null] and ignores any other value; otherwise an
    own property is created. *)
Definition dict_set (k : Key) (v : Value) (d : Dict) : Dict :=
  match obj_lookup k (own d) with
  | Some _ => mkDict (obj_set k v (own d)) (proto d)
  | None =>
      match find k (proto d) with
      | Accessor => if object_or_null v then mkDict (own d) v else d
      | _ => mkDict (obj_set k v (own d)) (proto d)
      end
  end.

(** [delete d[k]] *)
Definition dict_delete (k : Key) (d : Dict) : Dict :=
  mkDict (filter (λ p, p.1 ≠ k) (own d : list (Key * Value))) (proto d).
End Objects.

(** The conversion of a value to a boolean. *)
Definition truthy (v : Value) : bool :=
  match v with
  | VUndefined | VNull | VBool false | VNum 0 | VStr EmptyString => false
  | _ => true
  end.

(** A listener [(nextValue) => ...] that does not call the store: it
    returns or it throws. *)
Definition Listener : Type := Value → Completion unit.

(** The callback that [set] hands to [Promise.resolve().then].  It closes
    over [key] and over the objects [model] and [prevValueByKey]. *)
Record Task : Type := mkTask {
  task_id : nat;
  (** the store whose [set] queued the callback: its [this] *)
  task_store : nat;
  task_model : nat;
  task_prev : nat;
  task_key : Key
}.

Record Store : Type := mkStore {
  (** the address of the store object itself *)
  address : nat;
  _isDispatching : bool;
  _emittingByKey : Dict;
  _middleware : list Middleware;
  (** the address of the object [_model] *)
  _model : nat;
  (** the address of the object [_prevValueByKey] *)
  _prevValueByKey : nat;
  (** the own properties of [_reducersByType], whose prototype is
      [Object.prototype] *)
  _reducersByType : gmap Key (list Reducer);
  (** the listeners of the event emitter, by event name *)
  listeners : gmap Key (list Listener);
  (** the dictionaries allocated so far *)
  heap : gmap nat Dict;
  next_address : nat;
  (** the queued callbacks of [set], oldest first *)
  microtasks : list Task;
  next_task : nat;
  (** what the callbacks of [set] that have run returned or threw: what
      their promises were resolved or rejected with *)
  settled : gmap nat (Completion Value);
  (** the calls of the emitter's [emit] that ran the listeners of the key,
      oldest first *)
  emitted : list (Key * Value)
}.

Definition with_isDispatching (b : bool) (st : Store) : Store :=
  mkStore (address st) b (_emittingByKey st) (_middleware st) (_model st)
    (_prevValueByKey st) (_reducersByType st) (listeners st) (heap st)
    (next_address st) (microtasks st) (next_task st) (settled st) (emitted st).

Definition with_emittingByKey (d : Dict) (st : Store) : Store :=
  mkStore (address st) (_isDispatching st) d (_middleware st) (_model st)
    (_prevValueByKey st) (_reducersByType st) (listeners st) (heap st)
    (next_address st) (microtasks st) (next_task st) (settled st) (emitted st).

Definition with_middleware (ms : list Middleware) (st : Store) : Store :=
  mkStore (address st) (_isDispatching st) (_emittingByKey st) ms (_model st)
    (_prevValueByKey st) (_reducersByType st) (listeners st) (heap st)
    (next_address st) (microtasks st) (next_task st) (settled st) (emitted st).

Definition with_reducersByType (m : gmap Key (list Reducer)) (st : Store)
  : Store :=
  mkStore (address st) (_isDispatching st) (_emittingByKey st)
    (_middleware st) (_model st) (_prevValueByKey st) m (listeners st)
    (heap st) (next_address st) (microtasks st) (next_task st) (settled st)
    (emitted st).

Definition with_listeners (m : gmap Key (list Listener)) (st : Store) : Store :=
  mkStore (address st) (_isDispatching st) (_emittingByKey st)
    (_middleware st) (_model st) (_prevValueByKey st) (_reducersByType st) m
    (heap st) (next_address st) (microtasks st) (next_task st) (settled st)
    (emitted st).

Definition with_heap (h : gmap nat Dict) (st : Store) : Store :=
  mkStore (address st) (_isDispatching st) (_emittingByKey st)
    (_middleware st) (_model st) (_prevValueByKey st) (_reducersByType st)
    (listeners st) h (next_address st) (microtasks st) (next_task st)
    (settled st) (emitted st).

Definition with_microtasks (q : list Task) (st : Store) : Store :=
  mkStore (address st) (_isDispatching st) (_emittingByKey st)
    (_middleware st) (_model st) (_prevValueByKey st) (_reducersByType st)
    (listeners st) (heap st) (next_address st) q (next_task st) (settled st)
    (emitted st).

Definition with_emitted (l : list (Key * Value)) (st : Store) : Store :=
  mkStore (address st) (_isDispatching st) (_emittingByKey st)
    (_middleware st) (_model st) (_prevValueByKey st) (_reducersByType st)
    (listeners st) (heap st) (next_address st) (microtasks st) (next_task st)
    (settled st) l.

(** The object at an address. *)
Definition deref (a : nat) (st : Store) : Dict :=
  default empty_object (heap st !! a).

(** The object at an address is replaced by its updated state. *)
Definition store_at (a : nat) (d : Dict) (st : Store) : Store :=
  with_heap (<[a := d]> (heap st)) st.

(** [Promise.resolve().then(callback)]: queue the callback, return its
    promise. *)
Definition schedule (model prevValueByKey : nat) (key : Key) (st : Store)
  : Promise * Store :=
  let id := next_task st in
  (Pending id,
   mkStore (address st) (_isDispatching st) (_emittingByKey st)
     (_middleware st) (_model st) (_prevValueByKey st) (_reducersByType st)
     (listeners st) (heap st) (next_address st)
     (microtasks st ++ [mkTask id (address st) model prevValueByKey key])
     (S id) (settled st) (emitted st)).

Definition settle (id : nat) (c : Completion Value) (st : Store) : Store :=
  mkStore (address st) (_isDispatching st) (_emittingByKey st)
    (_middleware st) (_model st) (_prevValueByKey st) (_reducersByType st)
    (listeners st) (heap st) (next_address st) (microtasks st) (next_task st)
    (<[id := c]> (settled st)) (emitted st).

Section Store.
Variable env : Environment.

(** ** Model *)

(** [get = (key) => this._model[key]] *)
Definition get (key : Key) (st : Store) : Value :=
  dict_get env key (deref (_model st) st).

(** [keys() { return Object.keys(this._model) }] *)
Definition keys (st : Store) : list string :=
  Object_keys (own (deref (_model st) st)).

(** [typeof edit === 'function' ? edit(value) : edit] *)
Definition apply_edit (edit : Edit) (value : Value) : Completion Value :=
  match edit with
  | Lit (VFun ref) => functions env ref value
  | Lit v => Return v
  | Fn f => f value
  end.

(** [set = (key, edit) => ...], up to the callback it queues. *)
Definition set (key : Key) (edit : Edit) (st : Store) : Promise * Store :=
  let model := _model st in
  let value := dict_get env key (deref model st) in
  let prevValueByKey := _prevValueByKey st in
  let st :=
    if dict_has env key (deref prevValueByKey st) then st
    else
      store_at prevValueByKey
        (dict_set env key value (deref prevValueByKey st)) st in
  match apply_edit edit value with
  | Return v =>
      schedule model prevValueByKey key
        (store_at model (dict_set env key v (deref model st)) st)
  | Throw error => (Rejected error, st)
  end.

(** ** Events *)

(** The listeners run in the order of their registration, until one
    throws. *)
Fixpoint run_listeners (ls : list Listener) (v : Value) : Completion unit :=
  match ls with
  | [] => Return ()
  | l :: ls =>
      match l v with
      | Return _ => run_listeners ls v
      | Throw e => Throw e
      end
  end.

(** [super.emit(key, nextValue)], of the event emitter: an ['error'] event
    without a listener is thrown. *)
Definition super_emit (key : Key) (nextValue : Value) (st : Store)
  : Completion unit * Store :=
  match default [] (listeners st !! key) with
  | [] =>
      if bool_decide (key = KStr "error") then
        (Throw (unhandled env nextValue), st)
      else (Return (), with_emitted (emitted st ++ [(key, nextValue)]) st)
  | ls =>
      (run_listeners ls nextValue,
       with_emitted (emitted st ++ [(key, nextValue)]) st)
  end.

(** [emit(key, nextValue)] *)
Definition emit (key : Key) (nextValue : Value) (st : Store)
  : Completion unit * Store :=
  if negb (truthy (dict_get env key (_emittingByKey st))) then
    match key_text key with
    | Return s =>
        (Throw (Error ("Can’t emit key '" +:+ s +:+ "' without setting it")),
         st)
    | Throw e => (Throw e, st)
    end
  else super_emit key nextValue st.

(** [on(key, listener)], of the event emitter. *)
Definition on (key : Key) (listener : Listener) (st : Store) : Store :=
  with_listeners
    (<[key := default [] (listeners st !! key) ++ [listener]]> (listeners st))
    st.

(** The callback queued by the [set] of this store, run in the next
    turn. *)
Definition run_task (t : Task) (st : Store) : Store :=
  let key := task_key t in
  let nextValue := dict_get env key (deref (task_model t) st) in
  let prevValueByKey := deref (task_prev t) st in
  if dict_has env key prevValueByKey then
    let prevValue := dict_get env key prevValueByKey in
    let st := store_at (task_prev t) (dict_delete key prevValueByKey) st in
    if negb (strict_eq nextValue prevValue) then
      let st :=
        with_emittingByKey
          (dict_set env key (VBool true) (_emittingByKey st)) st in
      let '(c, st) := emit key nextValue st in
      let st :=
        with_emittingByKey
          (dict_set env key (VBool false) (_emittingByKey st)) st in
      match c with
      | Return _ => settle (task_id t) (Return nextValue) st
      | Throw e => settle (task_id t) (Throw e) st
      end
    else settle (task_id t) (Return nextValue) st
  else settle (task_id t) (Return nextValue) st.

(** The next scheduling turn, when the queued callbacks are those of this
    store: every callback runs, oldest first. *)
Definition drain (st : Store) : Store :=
  foldl (λ s t, run_task t s) (with_microtasks [] st) (microtasks st).

(** ** Initialisation and registration *)

(** [initialize(model?)]: the two dictionaries that callbacks hold are new
    objects. *)
Definition initialize (model : option (JsObject Value)) (st : Store) : Store :=
  let a_model := next_address st in
  let a_prev := S (next_address st) in
  let st :=
    mkStore (address st) false empty_object [] a_model a_prev ∅ ∅
      (<[a_prev := empty_object]> (<[a_model := empty_object]> (heap st)))
      (S (S (next_address st)))
      (microtasks st) (next_task st) (settled st) (emitted st) in
  match model with
  | Some model =>
      foldl (λ st key,
               store_at a_model
                 (dict_set env (KStr key) (obj_get (KStr key) model)
                    (deref a_model st)) st)
        st (Object_keys model)
  | None => st
  end.

(** The loop of [bind]: [this._reducersByType[type]] is an array of the
    store, or a member inherited from [Object.prototype], which has no
    [push], or nothing. *)
Fixpoint bind_each (actions : JsObject Reducer) (types : list string)
    (st : Store) : Completion unit * Store :=
  match types with
  | [] => (Return (), st)
  | type :: types =>
      match obj_lookup (KStr type) actions with
      | Some reducer =>
          match _reducersByType st !! KStr type with
          | Some reducers =>
              bind_each actions types
                (with_reducersByType
                   (<[KStr type := reducers ++ [reducer]]> (_reducersByType st))
                   st)
          | None =>
              match find env (KStr type) ObjectPrototype with
              | Missing =>
                  bind_each actions types
                    (with_reducersByType
                       (<[KStr type := [reducer]]> (_reducersByType st)) st)
              | _ =>
                  (Throw (Error
                     "this._reducersByType[type].push is not a function"), st)
              end
          end
      | None => bind_each actions types st
      end
  end.

(** [bind(actions)] *)
Definition bind (actions : JsObject Reducer) (st : Store)
  : Completion unit * Store :=
  bind_each actions (Object_keys actions) st.

(** [use(middleware)] *)
Definition use (middleware : Middleware) (st : Store) : Store :=
  with_middleware (_middleware st ++ [middleware]) st.

(** ** Actions *)

(** The conversion of a value used as a property name. *)
Definition property_key (v : Value) : Completion Key :=
  match v with
  | VUndefined => Return (KStr "undefined")
  | VNull => Return (KStr "null")
  | VBool true => Return (KStr "true")
  | VBool false => Return (KStr "false")
  | VNum n =>
      if bool_decide (Z.abs n < 10 ^ 21)%Z then Return (KStr (pretty n))
      else coerce env v
  | VStr s => Return (KStr s)
  | VSym id => Return (KSym id)
  | VFun _ | VObj _ _ _ => coerce env v
  end.

Definition Dispatch : Type :=
  Value → Store → option (Completion Promise * Store).

Definition Next : Type :=
  Value → Z → Store → option (Completion Promise * Z * Store).

(** A reducer runs: [reducer(self.get, self.set, nextAction)]. *)
Fixpoint exec_reducer (dispatch : Dispatch) (p : RProg) (st : Store)
  : option (Completion unit * Store) :=
  match p with
  | RReturn => Some (Return (), st)
  | RThrow e => Some (Throw e, st)
  | RGet k cont => exec_reducer dispatch (cont (get k st)) st
  | RSet k edit cont =>
      let '(promise, st) := set k edit st in
      exec_reducer dispatch (cont promise) st
  | RDispatch action cont =>
      match dispatch action st with
      | Some (c, st) => exec_reducer dispatch (cont c) st
      | None => None
      end
  end.

(** [reducers.forEach((reducer) => {
       try { self._isDispatching = true; reducer(...) }
       finally { self._isDispatching = false } })] *)
Fixpoint forEach_reducer (dispatch : Dispatch) (reducers : list Reducer)
    (nextAction : Value) (st : Store) : option (Completion unit * Store) :=
  match reducers with
  | [] => Some (Return (), st)
  | reducer :: reducers =>
      match exec_reducer dispatch (reducer nextAction)
              (with_isDispatching true st) with
      | Some (c, st) =>
          let st := with_isDispatching false st in
          match c with
          | Return _ => forEach_reducer dispatch reducers nextAction st
          | Throw e => Some (Throw e, st)
          end
      | None => None
      end
  end.

(** [self._reducersByType[type] || []], then [reducers.forEach]: an
    inherited member is not an array. *)
Definition reducers_of (type : Key) (st : Store)
  : Completion (list Reducer) :=
  match _reducersByType st !! type with
  | Some reducers => Return reducers
  | None =>
      match find env type ObjectPrototype with
      | Missing => Return []
      | _ => Throw (Error "reducers.forEach is not a function")
      end
  end.

(** The branch [if (!nextMiddleware) { ... }] of [call]. *)
Definition terminal (dispatch : Dispatch) (nextAction : Value) (st : Store)
  : option (Completion Promise * Store) :=
  if negb (isPlainObject nextAction) then
    Some (Return (Rejected (Error "`action` is not a plain object")), st)
  else if negb (has_property (KStr "type") nextAction) then
    Some (Return (Rejected
            (Error "`action` doesn’t include a `type` property")), st)
  else
    match property_key (get_property (KStr "type") nextAction) with
    | Return type =>
        match reducers_of type st with
        | Return reducers =>
            match forEach_reducer dispatch reducers nextAction st with
            | Some (Return _, st) =>
                Some (Return (Promise_resolve (RValue nextAction)), st)
            | Some (Throw e, st) => Some (Throw e, st)
            | None => None
            end
        | Throw e => Some (Throw e, st)
        end
    | Throw e => Some (Throw e, st)
    end.

(** A middleware runs: [nextMiddleware(nextAction, next)]. *)
Fixpoint exec_middleware (dispatch : Dispatch) (next : Next) (p : MwProg)
    (index : Z) (st : Store) : option (Completion Returned * Z * Store) :=
  match p with
  | MReturn r => Some (Return r, index, st)
  | MThrow e => Some (Throw e, index, st)
  | MGet k cont => exec_middleware dispatch next (cont (get k st)) index st
  | MDispatch action cont =>
      match dispatch action st with
      | Some (c, st) => exec_middleware dispatch next (cont c) index st
      | None => None
      end
  | MNext a cont =>
      match next a index st with
      | Some (c, index, st) => exec_middleware dispatch next (cont c) index st
      | None => None
      end
  end.

(** The local function [call(nextIndex, nextAction)] of [dispatch]. *)
Fixpoint call (dispatch : Dispatch) (remaining : list Middleware)
    (nextIndex : nat) (nextAction : Value) (index : Z) (st : Store)
    {struct remaining} : option (Completion Promise * Z * Store) :=
  if bool_decide (Z.of_nat nextIndex ≤ index)%Z then
    Some (Return (Rejected (Error "`next()` called more than once")),
          index, st)
  else
    let index := Z.of_nat nextIndex in
    match remaining with
    | [] =>
        match terminal dispatch nextAction st with
        | Some (c, st) => Some (c, index, st)
        | None => None
        end
    | nextMiddleware :: remaining =>
        let nextIndex := S nextIndex in
        match exec_middleware dispatch
                (λ _, call dispatch remaining nextIndex nextAction)
                (nextMiddleware nextAction) index st with
        | Some (Return r, index, st) =>
            Some (Return (Promise_resolve r), index, st)
        | Some (Throw error, index, st) =>
            Some (Return (Rejected error), index, st)
        | None => None
        end
    end.

(** [dispatch(action)].  [depth] bounds how deeply client code may nest
    calls of [dispatch]. *)
Fixpoint dispatch (depth : nat) (action : Value) (st : Store)
  : option (Completion Promise * Store) :=
  if _isDispatching st then
    Some (Throw (Error "Reducers can’t dispatch actions"), st)
  else
    match depth with
    | O => None
    | S depth =>
        match call (dispatch depth) (_middleware st) 0 action (-1) st with
        | Some (c, _, st) => Some (c, st)
        | None => None
        end
    end.

(** Calls of [set] issued one after the other in the current turn. *)
Definition run_sets (calls : list (Key * Edit)) (st : Store) : Store :=
  foldl (λ s c, (set c.1 c.2 s).2) st calls.
End Store.

(** ** Instances *)

(** The fields of a [Store] instance. *)
Record Fields : Type := mkFields {
  f_isDispatching : bool;
  f_emittingByKey : Dict;
  f_middleware : list Middleware;
  f_model : nat;
  f_prevValueByKey : nat;
  f_reducersByType : gmap Key (list Reducer);
  f_listeners : gmap Key (list Listener)
}.

(** What the instances share: the heap, the microtask queue and what has
    been observed so far. *)
Record Shared : Type := mkShared {
  s_heap : gmap nat Dict;
  s_next_address : nat;
  s_microtasks : list Task;
  s_next_task : nat;
  s_settled : gmap nat (Completion Value);
  s_emitted : list (Key * Value)
}.

(** The module's objects: the [Store] instances by address, what they
    share, and the module-level binding [store]. *)
Record World : Type := mkWorld {
  instances : gmap nat Fields;
  shared : Shared;
  store : option nat
}.

Definition assemble (this : nat) (f : Fields) (s : Shared) : Store :=
  mkStore this (f_isDispatching f) (f_emittingByKey f) (f_middleware f)
    (f_model f) (f_prevValueByKey f) (f_reducersByType f) (f_listeners f)
    (s_heap s) (s_next_address s) (s_microtasks s) (s_next_task s)
    (s_settled s) (s_emitted s).

Definition fields_of (st : Store) : Fields :=
  mkFields (_isDispatching st) (_emittingByKey st) (_middleware st)
    (_model st) (_prevValueByKey st) (_reducersByType st) (listeners st).

Definition shared_of (st : Store) : Shared :=
  mkShared (heap st) (next_address st) (microtasks st) (next_task st)
    (settled st) (emitted st).

(** The fields of an object that the constructor has not assigned yet. *)
Definition blank : Fields := mkFields false empty_object [] 0 0 ∅ ∅.

(** The store object of a module that is being loaded, before its
    constructor calls [initialize]. *)
Definition blank_store : Store := assemble 0 blank (mkShared ∅ 1 [] 0 ∅ []).

(** A method of the instance [this] that changes state. *)
Definition on_instance (this : nat) (f : Store → Store) (w : World) : World :=
  match instances w !! this with
  | Some fields =>
      let st := f (assemble this fields (shared w)) in
      mkWorld (<[this := fields_of st]> (instances w)) (shared_of st) (store w)
  | None => w
  end.

(** A method of the instance [this] that reads state. *)
Definition of_instance {A} (this : nat) (f : Store → A) (w : World)
  : option A :=
  (λ fields, f (assemble this fields (shared w))) <$> instances w !! this.

(** The allocation of the object [this] by [new]. *)
Definition allocate (w : World) : nat * World :=
  let s := shared w in
  (s_next_address s,
   mkWorld (<[s_next_address s := blank]> (instances w))
     (mkShared (s_heap s) (S (s_next_address s)) (s_microtasks s)
        (s_next_task s) (s_settled s) (s_emitted s))
     (store w)).

Section World.
Variable env : Environment.

(** [new Store()] in the TypeScript source:
    [constructor() { super(); if (store) { return store };
                     this.initialize() }] *)
Definition new_Store (w : World) : nat * World :=
  let '(this, w) := allocate w in
  match store w with
  | Some store => (store, w)
  | None => (this, on_instance this (initialize env None) w)
  end.

(** [new Store()] in the variant of [dyad.js] whose constructor has no
    guard: [function Store() { ...; _this.initialize(); return _this }]. *)
Definition new_Store_unguarded (w : World) : nat * World :=
  let '(this, w) := allocate w in
  (this, on_instance this (initialize env None) w).

(** Loading the module: [const store = new Store()]. *)
Definition load (construct : World → nat * World) : World :=
  let '(s, w) :=
    construct (mkWorld ∅ (mkShared ∅ 0 [] 0 ∅ []) None) in
  mkWorld (instances w) (shared w) (Some s).

(** [getInstance() { return store }] *)
Definition getInstance (w : World) : option nat := store w.

(** The next scheduling turn: every queued callback runs, oldest first,
    each on the store whose [set] queued it. *)
Definition turn (w : World) : World :=
  let s := shared w in
  foldl (λ w t, on_instance (task_store t) (run_task env t) w)
    (mkWorld (instances w)
       (mkShared (s_heap s) (s_next_address s) [] (s_next_task s)
          (s_settled s) (s_emitted s))
       (store w))
    (s_microtasks s).
End World.

(** ** Notions used by the properties *)

Section Notions.
Variable env : Environment.

(** The dictionaries that [set] and its callback use for [key] inherit no
    member named [key]. *)
Definition not_inherited (key : Key) (st : Store) : Prop :=
  find env key (proto (deref (_model st) st)) = Missing ∧
  find env key (proto (deref (_prevValueByKey st) st)) = Missing ∧
  find env key (proto (_emittingByKey st)) = Missing.

(** An assignment [d[k] = v] that makes [k] an own property of [d]: it
    does not reach the setter of [__proto__]. *)
Definition assignable (k : Key) (d : Dict) : Prop :=
  is_Some (obj_lookup k (own d)) ∨ find env k (proto d) ≠ Accessor.

(** The beginning of a turn: no callback is queued, and a pending-write
    record left behind by an earlier turn holds the model's value. *)
Definition turn_start (st : Store) : Prop :=
  microtasks st = [] ∧
  ∀ k v,
    obj_lookup k (own (deref (_prevValueByKey st) st)) = Some v →
    get env k st = v.

(** The listeners of [key] return when they are given [v], and an
    ['error'] event has a listener. *)
Definition heard (key : Key) (v : Value) (st : Store) : Prop :=
  Forall (λ l : Listener, l v = Return ()) (default [] (listeners st !! key))
  ∧ (key = KStr "error" → default [] (listeners st !! key) ≠ []).

(** The callbacks that [set] queues for [key] in a turn that began in
    [st0]. *)
Definition callback_of (key : Key) (st0 : Store) (t : Task) : Prop :=
  task_key t = key ∧ task_model t = _model st0
  ∧ task_prev t = _prevValueByKey st0.

(** What holds of [st] after calls [set(key, v)] in a turn that began in
    [st0]: the store holds the same objects, the pending-write record of
    [key], once made, is the value the turn began with, the callbacks
    queued since are those of [key], and the other keys are as they
    were. *)
Record in_turn (key : Key) (st0 st : Store) : Prop := mkInTurn {
  turn_model : _model st = _model st0;
  turn_prev : _prevValueByKey st = _prevValueByKey st0;
  turn_emitting : _emittingByKey st = _emittingByKey st0;
  turn_listeners : listeners st = listeners st0;
  turn_emitted : emitted st = emitted st0;
  turn_model_proto :
    proto (deref (_model st) st) = proto (deref (_model st0) st0);
  turn_prev_proto :
    proto (deref (_prevValueByKey st) st)
    = proto (deref (_prevValueByKey st0) st0);
  turn_record :
    match obj_lookup key (own (deref (_prevValueByKey st) st)) with
    | Some p => p = get env key st0
    | None => get env key st = get env key st0
    end;
  turn_queue :
    ∃ ts, microtasks st = microtasks st0 ++ ts
          ∧ Forall (callback_of key st0) ts;
  turn_others :
    ∀ k, k ≠ key →
      obj_lookup k (own (deref (_prevValueByKey st) st))
      = obj_lookup k (own (deref (_prevValueByKey st0) st0))
      ∧ get env k st = get env k st0
}.

(** A dispatcher that keeps a property of the store. *)
Definition keeps (P : Store → Prop) (d : Dispatch) : Prop :=
  ∀ a st c st', P st → d a st = Some (c, st') → P st'.

(** The same, of a [next] capability. *)
Definition next_keeps (P : Store → Prop) (next : Next) : Prop :=
  ∀ a index st c index' st',
    P st → next a index st = Some (c, index', st') → P st'.

(** The stores that a client reaches from the store of the loaded module
    with the store's methods, the registration of listeners, the [set]
    capability of its reducers, and the passing of turns. *)
Inductive reachable : Store → Prop :=
| reachable_new : reachable (initialize env None blank_store)
| reachable_initialize model st :
    reachable st → reachable (initialize env model st)
| reachable_bind actions st : reachable st → reachable (bind env actions st).2
| reachable_use middleware st : reachable st → reachable (use middleware st)
| reachable_on key listener st : reachable st → reachable (on key listener st)
| reachable_set key edit st : reachable st → reachable (set env key edit st).2
| reachable_dispatch depth action st c st' :
    reachable st → dispatch env depth action st = Some (c, st') → reachable st'
| reachable_emit key nextValue st :
    reachable st → reachable (emit env key nextValue st).2
| reachable_drain st : reachable st → reachable (drain env st).

(** No key is armed for emission: [_emittingByKey] has the prototype it
    was made with and its own properties are [false]. *)
Definition disarmed (st : Store) : Prop :=
  proto (_emittingByKey st) = ObjectPrototype
  ∧ ∀ k v, obj_lookup k (own (_emittingByKey st)) = Some v → v = VBool false.

(** [get] and [keys] return on the instance [r] of [w'] what they return
    on it in [w]. *)
Definition same_observations (r : nat) (w w' : World) : Prop :=
  (∀ k, of_instance r (get env k) w' = of_instance r (get env k) w)
  ∧ of_instance r keys w' = of_instance r keys w.
End Notions.

(** ** Example values *)

(** An environment in which the function [300] is [() => 7] and the other
    functions return [undefined]; a function object has the members of
    [Object.prototype]; an object used as a property name reads
    ["[object Object]"]. *)
Definition an_environment : Environment :=
  mkEnvironment
    (λ ref _, if decide (ref = 300) then Return (VNum 7) else Return VUndefined)
    (λ _ k,
       match obj_lookup k Object_prototype_members with
       | Some v => Data v
       | None =>
           if bool_decide (k = KStr "__proto__") then Accessor else Missing
       end)
    (λ _, Return (KStr "[object Object]"))
    (λ _, Error "Unhandled error.").

(** The store of a module that has just been loaded. *)
Definition new_store : Store :=
  initialize an_environment None blank_store.

(** A listener that returns. *)
Definition listens : Listener := λ _, Return ().

(** [initialize({counter: 0})], then [on('counter', listener)]. *)
Definition counter_store : Store :=
  on (KStr "counter") listens
    (initialize an_environment (Some [(KStr "counter", VNum 0)]) new_store).

(** [on('x', listener)] on a new store. *)
Definition listened_store : Store := on (KStr "x") listens new_store.

(** [on('toString', listener)] on a new store. *)
Definition toString_store : Store := on (KStr "toString") listens new_store.

(** One middleware that replaces the action, one reducer bound to ["A"]. *)
Definition replacing_store : Store :=
  (bind an_environment [(KStr "A", records)]
     (use (passes (λ _, action_B)) new_store)).2.

(** The module of the TypeScript source, once loaded. *)
Definition loaded_module : World := load (new_Store an_environment).

(** [{type: 'constructor'}] *)
Definition action_constructor : Value :=
  literal 120 [(KStr "type", VStr "constructor")].

End Exact.

(* ===================================================================== *)
(** * Properties *)
(* ===================================================================== *)

(** ** Own properties *)

Section JsObjectFacts.
Context {V : Type}.
Implicit Types (o : JsObject V) (k : Key) (v : V).

Lemma obj_lookup_set_eq k v o : obj_lookup k (obj_set k v o) = Some v.
Proof.
  induction o as [|[k' v'] o IH]; simpl.
  - by rewrite decide_True.
  - destruct (decide (k' = k)) as [->|Hne]; simpl.
    + by rewrite decide_True.
    + by rewrite decide_False.
Qed.

Lemma obj_lookup_set_ne k k' v o :
  k ≠ k' → obj_lookup k' (obj_set k v o) = obj_lookup k' o.
Proof.
  intros Hne. induction o as [|[k0 v0] o IH]; simpl.
  - by rewrite decide_False.
  - destruct (decide (k0 = k)) as [->|Hne0]; simpl.
    + by rewrite !decide_False.
    + by rewrite IH.
Qed.

Lemma obj_lookup_Some_elem k o :
  is_Some (obj_lookup k o) ↔ k ∈ creation_order o.
Proof.
  unfold creation_order.
  induction o as [|[k' v'] o IH]; simpl.
  - split; [intros [? [=]] | by intros ?%elem_of_nil].
  - rewrite elem_of_cons. destruct (decide (k' = k)) as [->|Hne].
    + split; eauto.
    + rewrite IH. split; [by right | by intros [?|?]].
Qed.

(** A property that exists keeps its place. *)
Lemma creation_order_set_old k v o :
  k ∈ creation_order o → creation_order (obj_set k v o) = creation_order o.
Proof.
  unfold creation_order.
  induction o as [|[k' v'] o IH]; simpl.
  - by intros ?%elem_of_nil.
  - intros Hin. destruct (decide (k' = k)) as [->|Hne]; simpl; [done|].
    f_equal. apply IH.
    apply elem_of_cons in Hin as [?|?]; [simpl in *; congruence | done].
Qed.

(** A new property is created last. *)
Lemma creation_order_set_new k v o :
  k ∉ creation_order o →
  creation_order (obj_set k v o) = creation_order o ++ [k].
Proof.
  unfold creation_order.
  induction o as [|[k' v'] o IH]; simpl; [done|].
  intros Hin. apply not_elem_of_cons in Hin as [Hne Hin].
  rewrite decide_False by done. simpl. f_equal. by apply IH.
Qed.
End JsObjectFacts.



Lemma strict_eq_refl v : strict_eq v v = true.
Proof. destruct v; simpl; try done; by apply bool_decide_eq_true. Qed.

(* ===================================================================== *)
(** * Turns *)
(* ===================================================================== *)

(** ** One call of [set] *)

Lemma set_returns key edit v st :
  apply_edit edit (get key st) = Return v →
  set key edit st =
    (Pending (next_task st),
     mkStore (_isDispatching st) (_emittingByKey st) (_middleware st)
       (obj_set key v (_model st)) (snapshot key st) (_reducersByType st)
       (epoch st) (retired st)
       (microtasks st ++ [mkTask (next_task st) (epoch st) key])
       (S (next_task st)) (settled st) (emitted st)).
Proof.
  intros He. unfold set, snapshot, get in *. rewrite He.
  by destruct (decide (is_Some (_prevValueByKey st !! key))).
Qed.

Lemma set_throws key edit error st :
  apply_edit edit (get key st) = Throw error →
  set key edit st = (Rejected error, with_prevValueByKey (snapshot key st) st).
Proof.
  intros He. unfold set, snapshot, get in *. rewrite He.
  destruct (decide (is_Some (_prevValueByKey st !! key))); [|done].
  by destruct st.
Qed.

(** ** One callback *)



(** ** The synchronous part of a turn *)




(** ** The next turn *)


(** ** A call of [set] whose edit function throws *)











(* ===================================================================== *)
(** * Dispatch *)
(* ===================================================================== *)

Lemma dispatch_reentrant depth action st :
  _isDispatching st = true → dispatch depth action st = reentrant action st.
Proof. intros H. destruct depth; simpl; by rewrite H. Qed.

Lemma set_isDispatching key edit st :
  _isDispatching (set key edit st).2 = _isDispatching st.
Proof.
  destruct (apply_edit edit (get key st)) as [v|error] eqn:He.
  - by rewrite (set_returns _ _ _ _ He).
  - by rewrite (set_throws _ _ _ _ He).
Qed.

(** While the flag is set, a reducer's calls of [dispatch] all throw, the
    reducer runs to its end, and the flag is still set there. *)
Lemma exec_reducer_dispatching depth p st :
  _isDispatching st = true →
  exec_reducer (dispatch depth) p st = exec_reducer reentrant p st
  ∧ ∃ c st', exec_reducer reentrant p st = Some (c, st')
             ∧ _isDispatching st' = true.
Proof.
  revert st. induction p as [|e|k cont IH|k edit cont IH|action cont IH];
    intros st Hflag; simpl.
  - eauto.
  - eauto.
  - apply IH, Hflag.
  - destruct (set k edit st) as [promise st1] eqn:Hset.
    apply IH. replace st1 with (set k edit st).2 by (by rewrite Hset).
    by rewrite set_isDispatching.
  - rewrite dispatch_reentrant by done. simpl. by apply IH.
Qed.

Lemma forEach_reducer_reentrant depth reducers nextAction st :
  forEach_reducer (dispatch depth) reducers nextAction st
  = forEach_reducer reentrant reducers nextAction st.
Proof.
  revert st. induction reducers as [|reducer reducers IH]; intros st; simpl.
  - done.
  - destruct (exec_reducer_dispatching depth (reducer nextAction)
                (with_isDispatching true st) eq_refl) as (-> & _).
    destruct (exec_reducer reentrant _ _) as [[[|e] st1]|]; [|done..].
    apply IH.
Qed.

(** The loop over the reducers ends, with the flag reset. *)
Lemma forEach_reducer_total reducers nextAction st :
  _isDispatching st = false →
  ∃ c st', forEach_reducer reentrant reducers nextAction st = Some (c, st')
           ∧ _isDispatching st' = false.
Proof.
  revert st. induction reducers as [|reducer reducers IH]; intros st Hflag;
    simpl.
  - eauto.
  - destruct (exec_reducer_dispatching 0 (reducer nextAction)
                (with_isDispatching true st) eq_refl)
      as (_ & c & st1 & -> & _).
    destruct c as [[]|e]; [by apply IH | eauto].
Qed.

Lemma terminal_reentrant depth nextAction st :
  terminal (dispatch depth) nextAction st = terminal reentrant nextAction st.
Proof. unfold terminal. by rewrite forEach_reducer_reentrant. Qed.

Lemma terminal_total nextAction st :
  _isDispatching st = false →
  ∃ c st', terminal reentrant nextAction st = Some (c, st')
           ∧ _isDispatching st' = false.
Proof.
  intros Hflag. unfold terminal.
  destruct (negb (isPlainObject nextAction)); [eauto|].
  destruct (negb (has_property (KStr "type") nextAction)); [eauto|].
  destruct (forEach_reducer_total
              (default [] (_reducersByType st !!
                 to_property_key (get_property (KStr "type") nextAction)))
              nextAction st Hflag) as (c & st' & -> & Hflag').
  destruct c; eauto.
Qed.

Lemma exec_middleware_idle d next p index st c index' st' :
  keeps_idle d → next_keeps_idle next →
  _isDispatching st = false →
  exec_middleware d next p index st = Some (c, index', st') →
  _isDispatching st' = false.
Proof.
  intros Hd Hnext. revert index st.
  induction p as [r|e|k cont IH|action cont IH|a cont IH];
    intros index st Hflag; simpl.
  - by intros [= _ _ <-].
  - by intros [= _ _ <-].
  - by apply IH.
  - destruct (d action st) as [[c1 st1]|] eqn:Hd1; [|done].
    apply IH. by eapply Hd.
  - destruct (next a index st) as [[[c1 index1] st1]|] eqn:Hn1; [|done].
    apply IH. by eapply Hnext.
Qed.

Lemma call_idle depth remaining nextIndex nextAction :
  keeps_idle (dispatch depth) →
  next_keeps_idle (λ _, call (dispatch depth) remaining nextIndex nextAction).
Proof.
  intros Hd. revert nextIndex.
  induction remaining as [|nextMiddleware remaining IH];
    intros nextIndex _ index st c index' st' Hflag; simpl.
  - case_bool_decide; [by intros [= _ _ <-]|].
    rewrite terminal_reentrant.
    destruct (terminal_total nextAction st Hflag) as (c1 & st1 & -> & Hflag1).
    by intros [= _ _ <-].
  - case_bool_decide; [by intros [= _ _ <-]|].
    destruct (exec_middleware _ _ _ _ _) as [[[c1 index1] st1]|] eqn:Hexec;
      [|done].
    eapply exec_middleware_idle in Hexec; [|done|apply IH|done].
    by destruct c1; intros [= _ _ <-].
Qed.

Lemma dispatch_idle depth : keeps_idle (dispatch depth).
Proof.
  induction depth as [|depth IH]; intros a st c st' Hflag; simpl;
    rewrite Hflag; [done|].
  destruct (call _ _ _ _ _ _) as [[[c1 index1] st1]|] eqn:Hcall; [|done].
  intros [= _ <-]. by eapply (call_idle depth _ 0 a IH a) in Hcall.
Qed.

(** C4.  A call of [dispatch] made while the dispatching flag is set throws
    "Reducers can’t dispatch actions" at the call site and changes nothing.
    The flag is set for as long as a reducer runs: every call of [dispatch]
    that a reducer makes, wherever it occurs in the reducer, throws in this
    way, and the flag is still set when the reducer ends.  The flag is
    reset afterwards: after the loop over the reducers, and so after any
    [dispatch] entered with the flag reset. *)
Theorem C4_reentrant_dispatch :
  (∀ depth action st,
      _isDispatching st = true →
      dispatch depth action st
      = Some (Throw (Error "Reducers can’t dispatch actions"), st))
  ∧ (∀ depth reducers nextAction st,
        forEach_reducer (dispatch depth) reducers nextAction st
        = forEach_reducer reentrant reducers nextAction st)
  ∧ (∀ depth p st c st',
        _isDispatching st = true →
        exec_reducer (dispatch depth) p st = Some (c, st') →
        _isDispatching st' = true)
  ∧ (∀ depth reducers nextAction st,
        _isDispatching st = false →
        ∃ c st',
          forEach_reducer (dispatch depth) reducers nextAction st
          = Some (c, st')
          ∧ _isDispatching st' = false)
  ∧ (∀ depth action st c st',
        _isDispatching st = false →
        dispatch depth action st = Some (c, st') →
        _isDispatching st' = false).
Proof.
  split; [|split; [|split; [|split]]].
  - intros. by apply dispatch_reentrant.
  - apply forEach_reducer_reentrant.
  - intros depth p st c st' Hflag.
    destruct (exec_reducer_dispatching depth p st Hflag)
      as (-> & c1 & st1 & -> & Hflag1).
    by intros [= _ <-].
  - intros depth reducers nextAction st Hflag.
    rewrite forEach_reducer_reentrant. by apply forEach_reducer_total.
  - intros depth action st c st'. apply dispatch_idle.
Qed.

(** ** A store without middleware *)

Lemma dispatch_no_middleware depth action st :
  _isDispatching st = false → _middleware st = [] →
  dispatch (S depth) action st = terminal reentrant action st.
Proof.
  intros Hflag Hmw. simpl. rewrite Hflag, Hmw. simpl.
  rewrite terminal_reentrant.
  by destruct (terminal reentrant action st) as [[c st']|].
Qed.

Lemma forEach_reducer_throws d before reducer after nextAction st st1 st2 e :
  forEach_reducer d before nextAction st = Some (Return (), st1) →
  exec_reducer d (reducer nextAction) (with_isDispatching true st1)
  = Some (Throw e, st2) →
  forEach_reducer d (before ++ reducer :: after) nextAction st
  = Some (Throw e, with_isDispatching false st2).
Proof.
  revert st. induction before as [|r before IH]; intros st; simpl.
  - intros [= <-] Hexec. by rewrite Hexec.
  - destruct (exec_reducer d (r nextAction) (with_isDispatching true st))
      as [[[[]|e'] st']|]; [|done..].
    apply IH.
Qed.

(** C10.  In a store without middleware, when one of the reducers bound to
    the action's type throws, the exception leaves [dispatch] itself
    (no rejected promise is returned), the reducers bound after the
    throwing one are not run (the store is left as the throwing reducer
    left it), and the dispatching flag is reset. *)
Theorem C10_reducer_throws (depth : nat) (action : Value) (st st1 st2 : Store)
    (before after : list Reducer) (reducer : Reducer) (e : Exn) :
  _middleware st = [] →
  _isDispatching st = false →
  isPlainObject action = true →
  has_property (KStr "type") action = true →
  _reducersByType st
    !! to_property_key (get_property (KStr "type") action)
  = Some (before ++ reducer :: after) →
  forEach_reducer (dispatch depth) before action st = Some (Return (), st1) →
  exec_reducer (dispatch depth) (reducer action) (with_isDispatching true st1)
  = Some (Throw e, st2) →
  dispatch (S depth) action st = Some (Throw e, with_isDispatching false st2)
  ∧ _isDispatching (with_isDispatching false st2) = false.
Proof.
  intros Hmw Hflag Hplain Htype Hreducers Hbefore Hthrows.
  split; [|done].
  rewrite dispatch_no_middleware, <-(terminal_reentrant depth) by done.
  unfold terminal. rewrite Hplain, Htype, Hreducers. simpl.
  by rewrite (forEach_reducer_throws _ _ _ _ _ _ _ _ _ Hbefore Hthrows).
Qed.

(** ** The chain's index *)

Lemma exec_middleware_advances d next p index st c index' st' :
  next_advances next →
  exec_middleware d next p index st = Some (c, index', st') →
  (index ≤ index')%Z.
Proof.
  intros Hnext. revert index st.
  induction p as [r|e|k cont IH|action cont IH|a cont IH];
    intros index st; simpl.
  - intros [= _ <- _]. lia.
  - intros [= _ <- _]. lia.
  - apply IH.
  - destruct (d action st) as [[c1 st1]|]; [|done]. apply IH.
  - destruct (next a index st) as [[[c1 index1] st1]|] eqn:Hn1; [|done].
    intros Hexec%IH. apply Hnext in Hn1. lia.
Qed.

(** After [call(nextIndex, ...)], [index] is at least [nextIndex] and has
    not decreased: it is the highest index reached. *)
Lemma call_advances d remaining nextIndex nextAction index st c index' st' :
  call d remaining nextIndex nextAction index st = Some (c, index', st') →
  (index ≤ index' ∧ Z.of_nat nextIndex ≤ index')%Z.
Proof.
  revert nextIndex index st c index' st'.
  induction remaining as [|nextMiddleware remaining IH];
    intros nextIndex index st c index' st'; simpl.
  - case_bool_decide; [intros [= _ <- _]; lia|].
    destruct (terminal d nextAction st) as [[c1 st1]|]; [|done].
    intros [= _ <- _]. lia.
  - case_bool_decide; [intros [= _ <- _]; lia|].
    destruct (exec_middleware _ _ _ _ _) as [[[c1 index1] st1]|] eqn:Hexec;
      [|done].
    apply exec_middleware_advances in Hexec.
    + destruct c1; intros [= _ <- _]; lia.
    + intros a i s c2 i2 s2 Hcall. by apply IH in Hcall as [? _].
Qed.

(** C7.  Within one dispatch, [call] rejects with "`next()` called more
    than once" an invocation whose index is not above the highest index the
    chain has reached.  [index] is that highest index: once the [next]
    capability of the middleware at position [i] has been invoked,
    [index] is at least [i + 1], and from then on every further invocation
    of that capability by the middleware returns this rejected promise. *)
Theorem C7_next_called_twice (d : Dispatch) (remaining : list Middleware)
    (i : nat) (nextAction : Value) :
  (∀ index st,
      (Z.of_nat (S i) ≤ index)%Z →
      call d remaining (S i) nextAction index st
      = Some (Return (Rejected (Error "`next()` called more than once")),
              index, st))
  ∧ (∀ index st c index' st',
        call d remaining (S i) nextAction index st = Some (c, index', st') →
        (Z.of_nat (S i) ≤ index')%Z)
  ∧ (∀ p index st,
        (Z.of_nat (S i) ≤ index)%Z →
        exec_middleware d (λ _, call d remaining (S i) nextAction) p index st
        = exec_middleware d rejected_next p index st).
Proof.
  assert (∀ index st,
             (Z.of_nat (S i) ≤ index)%Z →
             call d remaining (S i) nextAction index st
             = rejected_next nextAction index st) as Hguard.
  { intros index st Hle. destruct remaining; simpl;
      by rewrite bool_decide_eq_true_2. }
  split; [done|]. split.
  - intros index st c index' st' Hcall. by apply call_advances in Hcall as [_ ?].
  - induction p as [r|e|k cont IH|action cont IH|a cont IH];
      intros index st Hle; simpl; try done.
    + by apply IH.
    + destruct (d action st) as [[c1 st1]|]; [|done]. by apply IH.
    + rewrite Hguard by done. simpl. by apply IH.
Qed.

(** ** Middleware that passes the action on *)

Lemma calls_next_passes transform action :
  calls_next 1 (passes transform action).
Proof. apply calls_next_next. intros [p|e]; constructor. Qed.

Lemma call_passes d transforms nextIndex nextAction index st :
  (index < Z.of_nat nextIndex)%Z →
  call d (passes <$> transforms) nextIndex nextAction index st
  = match terminal d nextAction st with
    | Some (c, st') =>
        Some (match transforms with [] => c | _ => caught c end,
              Z.of_nat (nextIndex + length transforms), st')
    | None => None
    end.
Proof.
  revert nextIndex index.
  induction transforms as [|t transforms IH]; intros nextIndex index Hlt;
    simpl; rewrite bool_decide_eq_false_2 by lia.
  - rewrite Nat.add_0_r. by destruct (terminal d nextAction st) as [[c st']|].
  - rewrite IH by lia.
    destruct (terminal d nextAction st) as [[c st']|]; [|done].
    replace (S nextIndex + length transforms)
      with (nextIndex + S (length transforms)) by lia.
    destruct transforms; by destruct c.
Qed.

Lemma dispatch_passes depth transforms action st :
  _isDispatching st = false → _middleware st = passes <$> transforms →
  dispatch (S depth) action st
  = match terminal reentrant action st with
    | Some (c, st') =>
        Some (match transforms with [] => c | _ => caught c end, st')
    | None => None
    end.
Proof.
  intros Hflag Hmw. simpl. rewrite Hflag, Hmw, call_passes by lia.
  rewrite terminal_reentrant.
  by destruct (terminal reentrant action st) as [[c st']|].
Qed.

(** ** What [dispatch] resolves with and what the reducers receive *)

(** C2, as stated, fails: a middleware that invokes [next] exactly once and
    does not return its result makes [dispatch] resolve with [undefined],
    not with the action. *)
Lemma C2_counterexample :
  (∀ action, calls_next 1 (drops_result action))
  ∧ ∃ st',
      dispatch 1 action_A (use drops_result new_store)
      = Some (Return (Resolved VUndefined), st')
      ∧ Resolved VUndefined ≠ Resolved action_A.
Proof.
  split.
  - intros action. apply calls_next_next. intros c. constructor.
  - eexists. split; [vm_compute; reflexivity | discriminate].
Qed.

(** C3: the code at the failing input.  The middleware at index 0 calls
    [next] with [action_B]; the reducers that run are those of
    [action_A], they receive [action_A], and a middleware at index 1
    receives [action_A] too. *)
Theorem C3_next_discards_its_argument :
  (∃ st',
      dispatch 1 action_A
        (bind [(KStr "A", records); (KStr "B", records)]
           (use (passes (λ _, action_B)) new_store))
      = Some (Return (Resolved action_A), st')
      ∧ get (KStr "seen") st' = action_A)
  ∧ (∃ st',
        dispatch 1 action_A
          (use echoes (use (passes (λ _, action_B)) new_store))
        = Some (Return (Resolved action_A), st')).
Proof.
  split; eexists; [split|]; vm_compute; reflexivity.
Qed.

(** ** Plain objects *)

Lemma isPlainObject_not_object x :
  typeof x ≠ "object" → isPlainObject x = false.
Proof.
  intros Hty. unfold isPlainObject.
  rewrite (bool_decide_eq_false_2 _ Hty). by rewrite andb_false_r.
Qed.

(** [Object.create(null)] and the like. *)
Lemma isPlainObject_null_prototype ref own :
  isPlainObject (VObj ref VNull own) = true.
Proof. done. Qed.

(** An object whose prototype has no prototype, as an object literal. *)
Lemma isPlainObject_root_prototype ref r members own :
  isPlainObject (VObj ref (VObj r VNull members) own) = true.
Proof. unfold isPlainObject; simpl. by apply bool_decide_eq_true. Qed.

(** An instance of a class, or of [Date]: its prototype has a prototype
    of its own. *)
Lemma isPlainObject_instance ref r members r' members' own :
  r ≠ r' →
  isPlainObject (VObj ref (VObj r (VObj r' VNull members') members) own)
  = false.
Proof.
  intros Hne. unfold isPlainObject; simpl. by apply bool_decide_eq_false.
Qed.

(** C5, as stated, fails: with a middleware that handles the value
    itself, dispatching a value that is not a plain object succeeds. *)
Lemma C5_counterexample :
  isPlainObject (VFun 200) = false
  ∧ dispatch 1 (VFun 200) (use thunk new_store)
    = Some (Return (Resolved VUndefined), use thunk new_store).
Proof. split; vm_compute; reflexivity. Qed.

(** C5, amended.  When the dispatched value reaches the end of the chain
    unchanged (there is no middleware, or every middleware passes it on
    with [next] and returns the result): a value that is not a plain
    object makes [dispatch] return a promise rejected with "`action` is not
    a plain object", and a plain object in which [type] is not found makes
    it return a promise rejected with "`action` doesn’t include a `type`
    property"; in both cases the store is left as it was: no reducer has
    run and the model is unchanged. *)
Theorem C5_invalid_action (depth : nat) (transforms : list (Value → Value))
    (action : Value) (st : Store) :
  _isDispatching st = false →
  _middleware st = passes <$> transforms →
  (isPlainObject action = false →
   dispatch (S depth) action st
   = Some (Return (Rejected (Error "`action` is not a plain object")), st))
  ∧ (isPlainObject action = true →
     has_property (KStr "type") action = false →
     dispatch (S depth) action st
     = Some (Return (Rejected
                (Error "`action` doesn’t include a `type` property")), st)).
Proof.
  intros Hflag Hmw.
  rewrite (dispatch_passes _ transforms) by done. unfold terminal.
  split.
  - intros ->. simpl. by destruct transforms.
  - intros -> ->. simpl. by destruct transforms.
Qed.

(* ===================================================================== *)
(** * Keys *)
(* ===================================================================== *)

#[global] Instance index_order_total : Total index_order.
Proof. intros a b. unfold index_order. lia. Qed.

#[global] Instance index_order_trans : Transitive index_order.
Proof. intros a b c. unfold index_order. lia. Qed.

Section ObjectKeysFacts.
Context {V : Type}.
Implicit Types (o : JsObject V).

Lemma elem_of_index_keys o s :
  s ∈ index_keys o ↔
  KStr s ∈ creation_order o ∧ is_Some (array_index s).
Proof.
  unfold creation_order.
  induction o as [|[[s'|id] v] o IH]; simpl.
  - split; [by intros ?%elem_of_nil | by intros [?%elem_of_nil _]].
  - rewrite elem_of_cons.
    destruct (array_index s') as [n|] eqn:Hs'.
    + rewrite elem_of_cons, IH. split.
      * intros [->|[? ?]]; [rewrite Hs'|]; eauto.
      * intros [[[= ->]|?] ?]; eauto.
    + rewrite IH. split.
      * intros [? ?]; eauto.
      * intros [[[= ->]|?] Hs]; [|done].
        rewrite Hs' in Hs. by destruct Hs.
  - rewrite elem_of_cons, IH. split.
    + intros [? ?]; eauto.
    + by intros [[?|?] ?].
Qed.

Lemma named_keys_names_of o : named_keys o = names_of (creation_order o).
Proof.
  unfold creation_order, names_of.
  induction o as [|[[s'|id] v] o IH]; simpl; [done| |done].
  destruct (array_index s'); simpl; by rewrite IH.
Qed.

Lemma elem_of_named_keys o s :
  s ∈ named_keys o ↔ KStr s ∈ creation_order o ∧ array_index s = None.
Proof.
  rewrite named_keys_names_of. unfold names_of. rewrite list_elem_of_omap.
  split.
  - intros ([s'|id] & Hin & Hs); [|done].
    destruct (array_index s') eqn:Hs'; [done|]. by injection Hs as ->.
  - intros [Hin Hs]. exists (KStr s). by rewrite Hs.
Qed.

Lemma elem_of_Object_keys o s :
  s ∈ Object_keys o ↔ KStr s ∈ creation_order o.
Proof.
  unfold Object_keys.
  rewrite elem_of_app, merge_sort_Permutation, elem_of_index_keys,
    elem_of_named_keys.
  destruct (array_index s) as [n|].
  - split; [intros [[? _]|[_ [=]]]; done | intros ?; left; eauto].
  - split; [intros [[_ [? [=]]]|[? _]]; done | intros ?; by right].
Qed.
End ObjectKeysFacts.

(** C9, as stated, fails: the key ["1"] was inserted after ["b"], and
    [keys] lists it first. *)
Lemma C9_counterexample :
  creation_order (_model model_b_then_1) = [KStr "b"; KStr "1"]
  ∧ keys model_b_then_1 = ["1"; "b"]
  ∧ KStr <$> keys model_b_then_1 ≠ creation_order (_model model_b_then_1).
Proof. split; [|split]; [vm_compute; reflexivity..|discriminate]. Qed.

(** C9, amended.  [keys()] returns exactly the model's string keys: first
    those that are array indices, in ascending numeric order, then the
    others in the order in which they were inserted into the model.  When
    no key of the model is an array index or a symbol, this is the order of
    insertion. *)
Theorem C9_keys_order (st : Store) :
  (∀ s, s ∈ keys st ↔ KStr s ∈ creation_order (_model st))
  ∧ (∃ indices,
        keys st = indices ++ names_of (creation_order (_model st))
        ∧ StronglySorted index_order indices
        ∧ ∀ s, s ∈ indices ↔
               KStr s ∈ creation_order (_model st) ∧ is_Some (array_index s))
  ∧ ((∀ k, k ∈ creation_order (_model st) →
           ∃ s, k = KStr s ∧ array_index s = None) →
     KStr <$> keys st = creation_order (_model st)).
Proof.
  split; [|split].
  - intros s. apply elem_of_Object_keys.
  - exists (merge_sort index_order (index_keys (_model st))).
    split; [|split].
    + unfold keys, Object_keys. by rewrite named_keys_names_of.
    + apply StronglySorted_merge_sort; apply _.
    + intros s. by rewrite merge_sort_Permutation, elem_of_index_keys.
  - unfold keys, Object_keys, creation_order.
    induction (_model st) as [|[[s|id] v] o IH]; simpl; intros Hall.
    + done.
    + destruct (Hall (KStr s)) as (s' & [= <-] & Hs); [by left|].
      rewrite Hs. simpl.
      assert (index_keys o = []) as Hnil.
      { apply elem_of_nil_inv. intros s' [Hin [n Hn]]%elem_of_index_keys.
        destruct (Hall (KStr s')) as (s'' & [= <-] & Hs'); [by right|].
        congruence. }
      rewrite Hnil in *. simpl. f_equal. apply IH.
      intros k Hin. apply Hall. by right.
    + destruct (Hall (KSym id)) as (s' & [=] & _). by left.
Qed.

(* ===================================================================== *)
(** * Instances of the theorems *)
(* ===================================================================== *)


(** The final value is the one the turn began with: nobody is notified. *)
Example set_back_to_start :
  emitted (drain (run_sets
                    (set_each (KStr "counter") ([VNum 1; VNum 2] ++ [VNum 0]))
                    counter_store))
  = [].
Proof. vm_compute. reflexivity. Qed.


Lemma C4_witness :
  _isDispatching (with_isDispatching true new_store) = true
  ∧ dispatch 0 action_A (with_isDispatching true new_store)
    = Some (Throw (Error "Reducers can’t dispatch actions"),
            with_isDispatching true new_store).
Proof.
  split; [reflexivity|].
  exact (proj1 C4_reentrant_dispatch 0 action_A
           (with_isDispatching true new_store) eq_refl).
Defined.

Lemma C10_witness :
  _middleware three_reducers = []
  ∧ _isDispatching three_reducers = false
  ∧ isPlainObject action_A = true
  ∧ has_property (KStr "type") action_A = true
  ∧ _reducersByType three_reducers
      !! to_property_key (get_property (KStr "type") action_A)
    = Some ([records] ++ throws :: [marks])
  ∧ dispatch 1 action_A three_reducers
    = Some (Throw (Error "boom"),
            with_isDispatching false (with_isDispatching true after_records))
  ∧ get (KStr "after")
      (with_isDispatching false (with_isDispatching true after_records))
    = VUndefined.
Proof.
  assert (_reducersByType three_reducers
            !! to_property_key (get_property (KStr "type") action_A)
          = Some ([records] ++ throws :: [marks])) as Hbound
    by (vm_compute; reflexivity).
  do 4 (split; [reflexivity|]). split; [exact Hbound|].
  split; [|vm_compute; reflexivity].
  exact (proj1 (C10_reducer_throws 0 action_A three_reducers after_records
                  (with_isDispatching true after_records)
                  [records] [marks] throws (Error "boom")
                  eq_refl eq_refl eq_refl eq_refl Hbound eq_refl eq_refl)).
Defined.

Lemma C7_witness :
  (Z.of_nat 1 ≤ 1)%Z
  ∧ call (dispatch 0) [] 1 action_A 1 new_store
    = Some (Return (Rejected (Error "`next()` called more than once")),
            1%Z, new_store).
Proof.
  split; [lia|].
  apply (proj1 (C7_next_called_twice (dispatch 0) [] 0 action_A)). lia.
Defined.

Example dispatch_calls_twice :
  fst <$> dispatch 1 action_A (use calls_twice new_store)
  = Some (Return (Rejected (Error "`next()` called more than once"))).
Proof. vm_compute. reflexivity. Qed.

Lemma C5_witness :
  _isDispatching new_store = false
  ∧ _middleware new_store = passes <$> []
  ∧ isPlainObject a_date = false
  ∧ dispatch 1 a_date new_store
    = Some (Return (Rejected (Error "`action` is not a plain object")),
            new_store)
  ∧ isPlainObject (literal 104 []) = true
  ∧ has_property (KStr "type") (literal 104 []) = false
  ∧ dispatch 1 (literal 104 []) new_store
    = Some (Return (Rejected
               (Error "`action` doesn’t include a `type` property")),
            new_store).
Proof.
  do 3 (split; [reflexivity|]). split; [|do 2 (split; [reflexivity|])].
  - exact (proj1 (C5_invalid_action 0 [] a_date new_store eq_refl eq_refl)
             eq_refl).
  - exact (proj2 (C5_invalid_action 0 [] (literal 104 []) new_store
                    eq_refl eq_refl) eq_refl eq_refl).
Defined.

Example class_instance_not_plain : isPlainObject a_class_instance = false.
Proof. reflexivity. Qed.

Example null_prototype_plain : isPlainObject (VObj 105 VNull []) = true.
Proof. reflexivity. Qed.

Lemma C9_witness :
  (∀ k, k ∈ creation_order (_model named_store) →
        ∃ s, k = KStr s ∧ array_index s = None)
  ∧ KStr <$> keys named_store = creation_order (_model named_store).
Proof.
  assert (∀ k, k ∈ creation_order (_model named_store) →
               ∃ s, k = KStr s ∧ array_index s = None) as Hnamed.
  { intros k Hin.
    change (creation_order (_model named_store))
      with [KStr "b"; KStr "a"] in Hin.
    apply elem_of_cons in Hin as [->|Hin]; [by exists "b"|].
    apply list_elem_of_singleton in Hin as ->. by exists "a". }
  split; [exact Hnamed|].
  exact (proj2 (proj2 (C9_keys_order named_store)) Hnamed).
Defined.

(* ===================================================================== *)
(** * The counter *)
(* ===================================================================== *)

(** [INCREMENT] three times then [DECREMENT] twice, in one turn: one
    notification, with the value 1. *)
Example counter_notified_once :
  emitted <$> (drain <$> dispatch_each
                 [INCREMENT; INCREMENT; INCREMENT; DECREMENT; DECREMENT]
                 counting_store)
  = Some [(KStr "counter", VNum 1)].
Proof. vm_compute. reflexivity. Qed.

(** [INCREMENT] three times then [DECREMENT] three times: the value is
    the one the turn began with, nobody is notified. *)
Example counter_not_notified :
  emitted <$> (drain <$> dispatch_each
                 [INCREMENT; INCREMENT; INCREMENT;
                  DECREMENT; DECREMENT; DECREMENT]
                 counting_store)
  = Some [].
Proof. vm_compute. reflexivity. Qed.

(** A reducer that calls [dispatch] and catches what it throws. *)
Example reducer_dispatch_caught :
  (λ r, get (KStr "caught") r.2)
    <$> dispatch 1 action_A
          (bind [(KStr "A",
                  λ action,
                    RDispatch action (λ c,
                      match c with
                      | Throw (Error message) =>
                          RSet (KStr "caught") (Lit (VStr message))
                            (λ _, RReturn)
                      | _ => RReturn
                      end))]
             new_store)
  = Some (VStr "Reducers can’t dispatch actions").
Proof. vm_compute. reflexivity. Qed.

(* ===================================================================== *)
(** * What [dispatch] keeps *)
(* ===================================================================== *)

Section Keeps.
Variable P : Store → Prop.
Hypothesis P_set : ∀ key edit st, P st → P (set key edit st).2.
Hypothesis P_flag : ∀ b st, P st → P (with_isDispatching b st).

Lemma exec_reducer_keeps d p st c st' :
  keeps P d → P st → exec_reducer d p st = Some (c, st') → P st'.
Proof.
  intros Hd. revert st.
  induction p as [|e|k cont IH|k edit cont IH|action cont IH];
    intros st HP; simpl.
  - by intros [= _ <-].
  - by intros [= _ <-].
  - by apply IH.
  - destruct (set k edit st) as [promise st1] eqn:Hset.
    apply IH. replace st1 with (set k edit st).2 by (by rewrite Hset).
    by apply P_set.
  - destruct (d action st) as [[c1 st1]|] eqn:Hd1; [|done].
    apply IH. by eapply Hd.
Qed.

Lemma forEach_reducer_keeps d reducers nextAction st c st' :
  keeps P d → P st →
  forEach_reducer d reducers nextAction st = Some (c, st') → P st'.
Proof.
  intros Hd. revert st.
  induction reducers as [|reducer reducers IH]; intros st HP; simpl.
  - by intros [= _ <-].
  - destruct (exec_reducer d (reducer nextAction) (with_isDispatching true st))
      as [[c1 st1]|] eqn:Hexec; [|done].
    apply exec_reducer_keeps in Hexec; [|done|by apply P_flag].
    destruct c1 as [[]|e].
    + apply IH. by apply P_flag.
    + intros [= _ <-]. by apply P_flag.
Qed.

Lemma terminal_keeps d nextAction st c st' :
  keeps P d → P st → terminal d nextAction st = Some (c, st') → P st'.
Proof.
  intros Hd HP. unfold terminal.
  destruct (negb (isPlainObject nextAction)); [by intros [= _ <-]|].
  destruct (negb (has_property (KStr "type") nextAction));
    [by intros [= _ <-]|].
  destruct (forEach_reducer d _ nextAction st) as [[c1 st1]|] eqn:Hloop;
    [|done].
  apply forEach_reducer_keeps in Hloop; [|done..].
  by destruct c1; intros [= _ <-].
Qed.

Lemma exec_middleware_keeps d next p index st c index' st' :
  keeps P d → next_keeps P next → P st →
  exec_middleware d next p index st = Some (c, index', st') → P st'.
Proof.
  intros Hd Hnext. revert index st.
  induction p as [r|e|k cont IH|action cont IH|a cont IH];
    intros index st HP; simpl.
  - by intros [= _ _ <-].
  - by intros [= _ _ <-].
  - by apply IH.
  - destruct (d action st) as [[c1 st1]|] eqn:Hd1; [|done].
    apply IH. by eapply Hd.
  - destruct (next a index st) as [[[c1 index1] st1]|] eqn:Hn1; [|done].
    apply IH. by eapply Hnext.
Qed.

Lemma call_keeps d remaining nextIndex nextAction :
  keeps P d → next_keeps P (λ _, call d remaining nextIndex nextAction).
Proof.
  intros Hd. revert nextIndex.
  induction remaining as [|nextMiddleware remaining IH];
    intros nextIndex _ index st c index' st' HP; simpl.
  - case_bool_decide; [by intros [= _ _ <-]|].
    destruct (terminal d nextAction st) as [[c1 st1]|] eqn:Hterm; [|done].
    intros [= _ _ <-]. by eapply terminal_keeps.
  - case_bool_decide; [by intros [= _ _ <-]|].
    destruct (exec_middleware _ _ _ _ _) as [[[c1 index1] st1]|] eqn:Hexec;
      [|done].
    eapply exec_middleware_keeps in Hexec; [|done|apply IH|done].
    by destruct c1; intros [= _ _ <-].
Qed.

Lemma dispatch_keeps depth : keeps P (dispatch depth).
Proof.
  induction depth as [|depth IH]; intros a st c st' HP; simpl;
    (destruct (_isDispatching st); [by intros [= _ <-]|]); [done|].
  destruct (call _ _ _ _ _ _) as [[[c1 index1] st1]|] eqn:Hcall; [|done].
  intros [= _ <-]. by eapply (call_keeps _ _ 0 a IH a) in Hcall.
Qed.

Lemma same_turn_keeps st0 st : P st0 → same_turn st0 st → P st.
Proof.
  intros HP. induction 1 as [|st key edit _ IH|st depth action c st' _ IH Hd].
  - done.
  - by apply P_set.
  - by eapply dispatch_keeps.
Qed.
End Keeps.

(* ===================================================================== *)
(** * One callback, whatever objects it captured *)
(* ===================================================================== *)

Lemma run_task_frame t st :
  let st' := run_task t st in
  _model st' = _model st
  ∧ _isDispatching st' = _isDispatching st
  ∧ _middleware st' = _middleware st
  ∧ _reducersByType st' = _reducersByType st
  ∧ epoch st' = epoch st
  ∧ microtasks st' = microtasks st
  ∧ (disarmed st → disarmed st').
Proof.
  assert (∀ (k : Key) (m : gmap Key bool),
             (∀ k', default false (m !! k') = false) →
             ∀ k', default false (<[k := false]> (<[k := true]> m) !! k')
                   = false) as Harm.
  { intros k m Hm k'. destruct (decide (k = k')) as [->|Hne].
    - by rewrite lookup_insert_eq.
    - by rewrite !lookup_insert_ne. }
  unfold run_task, captured, delete_prev, disarmed.
  destruct (decide (task_epoch t = epoch st)) as [Hep|Hep].
  - destruct (_prevValueByKey st !! task_key t) as [p|]; [|done].
    destruct (strict_eq _ p); simpl; [done|].
    unfold emit; simpl. rewrite lookup_insert_eq; simpl.
    repeat split; try done. apply Harm.
  - destruct (retired st !! task_epoch t) as [[model prev]|]; simpl.
    + destruct (prev !! task_key t) as [p|]; [|done].
      destruct (strict_eq _ p); simpl; [done|].
      unfold emit; simpl. rewrite lookup_insert_eq; simpl.
      repeat split; try done. apply Harm.
    + done.
Qed.

Lemma run_tasks_frame ts st :
  let st' := foldl (λ s t, run_task t s) st ts in
  _model st' = _model st
  ∧ _isDispatching st' = _isDispatching st
  ∧ (disarmed st → disarmed st').
Proof.
  revert st. induction ts as [|t ts IH]; intros st; simpl; [done|].
  destruct (run_task_frame t st) as (Hm & Hd & _ & _ & _ & _ & Ha).
  destruct (IH (run_task t st)) as (Hm' & Hd' & Ha').
  rewrite Hm', Hm, Hd', Hd. auto.
Qed.

Lemma drain_frame st :
  _model (drain st) = _model st
  ∧ _isDispatching (drain st) = _isDispatching st
  ∧ (disarmed st → disarmed (drain st)).
Proof. apply (run_tasks_frame (microtasks st) (with_microtasks [] st)). Qed.

Lemma emit_frame key nextValue st :
  _model (emit key nextValue st).2 = _model st
  ∧ _isDispatching (emit key nextValue st).2 = _isDispatching st
  ∧ _emittingByKey (emit key nextValue st).2 = _emittingByKey st.
Proof.
  unfold emit. destruct (negb _); [|done]. by destruct (key_text key).
Qed.

(* ===================================================================== *)
(** * The model's keys *)
(* ===================================================================== *)

Lemma NoDup_obj_set {V} k (v : V) (o : JsObject V) :
  NoDup (creation_order o) → NoDup (creation_order (obj_set k v o)).
Proof.
  intros Hnd. destruct (decide (k ∈ creation_order o)) as [Hin|Hin].
  - by rewrite creation_order_set_old.
  - rewrite creation_order_set_new by done.
    apply NoDup_app. split; [done|]. split; [|apply NoDup_singleton].
    intros k' Hk' ->%list_elem_of_singleton. done.
Qed.

Lemma elem_of_creation_order_set {V} k k' (v : V) (o : JsObject V) :
  k' ∈ creation_order (obj_set k v o) ↔ k' = k ∨ k' ∈ creation_order o.
Proof.
  destruct (decide (k ∈ creation_order o)) as [Hin|Hin].
  - rewrite creation_order_set_old by done. split; [by right|].
    by intros [->|?].
  - rewrite creation_order_set_new, elem_of_app, list_elem_of_singleton
      by done. tauto.
Qed.

Lemma NoDup_index_keys {V} (o : JsObject V) :
  NoDup (creation_order o) → NoDup (index_keys o).
Proof.
  unfold creation_order.
  induction o as [|[[s|id] v] o IH]; simpl; intros Hnd.
  - constructor.
  - apply NoDup_cons in Hnd as [Hin Hnd].
    destruct (array_index s); [|by apply IH].
    apply NoDup_cons. split; [|by apply IH].
    by intros [? _]%elem_of_index_keys.
  - apply NoDup_cons in Hnd as [_ Hnd]. by apply IH.
Qed.

Lemma NoDup_named_keys {V} (o : JsObject V) :
  NoDup (creation_order o) → NoDup (named_keys o).
Proof.
  unfold creation_order.
  induction o as [|[[s|id] v] o IH]; simpl; intros Hnd.
  - constructor.
  - apply NoDup_cons in Hnd as [Hin Hnd].
    destruct (array_index s); [by apply IH|].
    apply NoDup_cons. split; [|by apply IH].
    by intros [? _]%elem_of_named_keys.
  - apply NoDup_cons in Hnd as [_ Hnd]. by apply IH.
Qed.

Lemma NoDup_Object_keys {V} (o : JsObject V) :
  NoDup (creation_order o) → NoDup (Object_keys o).
Proof.
  intros Hnd. unfold Object_keys. apply NoDup_app. split; [|split].
  - rewrite merge_sort_Permutation. by apply NoDup_index_keys.
  - intros s. rewrite merge_sort_Permutation.
    intros [_ [n Hn]]%elem_of_index_keys [_ Hs]%elem_of_named_keys.
    congruence.
  - by apply NoDup_named_keys.
Qed.

Lemma NoDup_seeded {V} (f : string → V) (ks : list string) (o : JsObject V) :
  NoDup (creation_order o) →
  NoDup (creation_order (foldl (λ m key, obj_set (KStr key) (f key) m) o ks)).
Proof.
  revert o. induction ks as [|k ks IH]; intros o Hnd; simpl; [done|].
  apply IH. by apply NoDup_obj_set.
Qed.

Lemma reachable_NoDup st : reachable st → NoDup (creation_order (_model st)).
Proof.
  induction 1 as [|model st _ IH|actions st _ IH|middleware st _ IH
                  |key edit st _ IH|depth action st c st' _ IH Hd
                  |key nextValue st _ IH|st _ IH]; try done.
  - constructor.
  - destruct model as [model|]; simpl; [|constructor].
    apply (NoDup_seeded (λ key, obj_get (KStr key) model)). constructor.
  - destruct (apply_edit edit (get key st)) as [v|error] eqn:He.
    + rewrite (set_returns _ _ _ _ He). simpl. by apply NoDup_obj_set.
    + by rewrite (set_throws _ _ _ _ He).
  - revert Hd.
    apply (dispatch_keeps (λ s, NoDup (creation_order (_model s))));
      [| |done].
    + intros k e s Hs.
      destruct (apply_edit e (get k s)) as [v|error] eqn:He.
      * rewrite (set_returns _ _ _ _ He). simpl. by apply NoDup_obj_set.
      * by rewrite (set_throws _ _ _ _ He).
    + done.
  - by destruct (emit_frame key nextValue st) as (-> & _).
  - by destruct (drain_frame st) as (-> & _).
Qed.

(** X2.  In every store that a client can reach, [keys()] lists no key
    twice. *)
Theorem keys_no_duplicates (st : Store) : reachable st → NoDup (keys st).
Proof. intros Hreach. by apply NoDup_Object_keys, reachable_NoDup. Qed.

Lemma keys_no_duplicates_witness :
  reachable (set (KStr "1") (Lit (VNum 2))
               (initialize (Some [(KStr "b", VNum 1); (KStr "a", VNum 3)])
                  new_store)).2
  ∧ NoDup (keys (set (KStr "1") (Lit (VNum 2))
                   (initialize (Some [(KStr "b", VNum 1); (KStr "a", VNum 3)])
                      new_store)).2).
Proof.
  assert (reachable
            (set (KStr "1") (Lit (VNum 2))
               (initialize (Some [(KStr "b", VNum 1); (KStr "a", VNum 3)])
                  new_store)).2) as Hreach
    by (apply reachable_set, reachable_initialize, reachable_new).
  split; [exact Hreach|]. exact (keys_no_duplicates _ Hreach).
Defined.

(* ===================================================================== *)
(** * [initialize] *)
(* ===================================================================== *)

Lemma seeded_lookup {V} (f : string → V) (ks : list string) (o : JsObject V)
    (s : string) :
  obj_lookup (KStr s) (foldl (λ m key, obj_set (KStr key) (f key) m) o ks)
  = if decide (s ∈ ks) then Some (f s) else obj_lookup (KStr s) o.
Proof.
  revert o. induction ks as [|k ks IH]; intros o; simpl.
  - by destruct (decide (s ∈ [])) as [?%elem_of_nil|].
  - rewrite IH. destruct (decide (s ∈ ks)) as [Hin|Hin].
    + rewrite decide_True; [done|by right].
    + destruct (decide (k = s)) as [->|Hne].
      * rewrite obj_lookup_set_eq. rewrite decide_True; [done|by left].
      * rewrite obj_lookup_set_ne by congruence.
        rewrite decide_False; [done|]. by intros [?|?]%elem_of_cons.
Qed.

Lemma seeded_lookup_symbol {V} (f : string → V) (ks : list string)
    (o : JsObject V) (id : nat) :
  obj_lookup (KSym id) (foldl (λ m key, obj_set (KStr key) (f key) m) o ks)
  = obj_lookup (KSym id) o.
Proof.
  revert o. induction ks as [|k ks IH]; intros o; simpl; [done|].
  by rewrite IH, obj_lookup_set_ne.
Qed.



(* ===================================================================== *)
(** * [bind] *)
(* ===================================================================== *)

Lemma bound_lookup (actions : JsObject Reducer) (ks : list string)
    (m : gmap Key (list Reducer)) (k : Key) :
  NoDup ks →
  (∀ s, s ∈ ks → is_Some (obj_lookup (KStr s) actions)) →
  foldl (λ m type,
           match obj_lookup (KStr type) actions with
           | Some reducer =>
               <[KStr type := default [] (m !! KStr type) ++ [reducer]]> m
           | None => m
           end) m ks !! k
  = match k with
    | KStr s =>
        if decide (s ∈ ks) then
          (λ reducer, default [] (m !! k) ++ [reducer])
            <$> obj_lookup k actions
        else m !! k
    | KSym _ => m !! k
    end.
Proof.
  revert m. induction ks as [|t ks IH]; intros m Hnd Hall; simpl.
  - destruct k as [s|id]; [|done].
    by destruct (decide (s ∈ [])) as [?%elem_of_nil|].
  - apply NoDup_cons in Hnd as [Ht Hnd].
    destruct (Hall t) as [r Hr]; [by left|]. rewrite Hr.
    rewrite IH; [|done|by intros s ?; apply Hall; right].
    destruct k as [s|id]; [|by rewrite lookup_insert_ne].
    destruct (decide (s ∈ ks)) as [Hin|Hin].
    + rewrite decide_True by (by right).
      rewrite lookup_insert_ne; [done|]. by intros [= ->].
    + destruct (decide (t = s)) as [->|Hne].
      * rewrite decide_True by (by left).
        by rewrite lookup_insert_eq, Hr.
      * rewrite lookup_insert_ne by congruence.
        rewrite decide_False; [done|]. by intros [?|?]%elem_of_cons.
Qed.

(* ===================================================================== *)
(** * Middleware that answers itself *)
(* ===================================================================== *)

Lemma call_short_circuit d transforms nextMiddleware remaining nextIndex
    nextAction index st :
  (index < Z.of_nat nextIndex)%Z →
  call d ((passes <$> transforms) ++ nextMiddleware :: remaining)
    nextIndex nextAction index st
  = match nextMiddleware nextAction with
    | MReturn r =>
        Some (Return (Promise_resolve r),
              Z.of_nat (nextIndex + length transforms), st)
    | MThrow e =>
        Some (Return (Rejected e),
              Z.of_nat (nextIndex + length transforms), st)
    | _ =>
        call d ((passes <$> transforms) ++ nextMiddleware :: remaining)
          nextIndex nextAction index st
    end.
Proof.
  destruct (nextMiddleware nextAction) as [r|e|k cont|a cont|a cont] eqn:Hm;
    try done.
  - revert nextIndex index.
    induction transforms as [|t transforms IH]; intros nextIndex index Hlt;
      simpl; rewrite bool_decide_eq_false_2 by lia.
    + by rewrite Hm, Nat.add_0_r.
    + rewrite IH by lia. simpl. do 3 f_equal. lia.
  - revert nextIndex index.
    induction transforms as [|t transforms IH]; intros nextIndex index Hlt;
      simpl; rewrite bool_decide_eq_false_2 by lia.
    + by rewrite Hm, Nat.add_0_r.
    + rewrite IH by lia. simpl. do 3 f_equal. lia.
Qed.

(** X7.  A middleware that returns without calling [next], reached
    through middleware that pass the action on, decides the result of
    [dispatch]: the promise of what it returned, or a promise rejected
    with what it threw.  The middleware after it and the reducers do not
    run: the store is unchanged. *)
Theorem middleware_short_circuits (depth : nat)
    (transforms : list (Value → Value)) (middleware : Middleware)
    (remaining : list Middleware) (action : Value) (st : Store) :
  _isDispatching st = false →
  _middleware st = (passes <$> transforms) ++ middleware :: remaining →
  (∀ r, middleware action = MReturn r →
        dispatch (S depth) action st = Some (Return (Promise_resolve r), st))
  ∧ (∀ e, middleware action = MThrow e →
          dispatch (S depth) action st = Some (Return (Rejected e), st)).
Proof.
  intros Hflag Hmw.
  split; intros x Hm; simpl; rewrite Hflag, Hmw, call_short_circuit by lia;
    by rewrite Hm.
Qed.

Lemma middleware_short_circuits_witness :
  _isDispatching thunk_store = false
  ∧ _middleware thunk_store
    = (passes <$> [λ a : Value, a]) ++ thunk :: []
  ∧ thunk (VFun 200) = MReturn (RValue VUndefined)
  ∧ dispatch 1 (VFun 200) thunk_store
    = Some (Return (Resolved VUndefined),
            thunk_store).
Proof.
  do 3 (split; [reflexivity|]).
  exact (proj1 (middleware_short_circuits 0 [λ a : Value, a] thunk []
                  (VFun 200) thunk_store eq_refl eq_refl)
           (RValue VUndefined) eq_refl).
Defined.

(* ===================================================================== *)
(** * A turn of [dispatch] and [set] calls, and the next *)
(* ===================================================================== *)

Lemma dispatch_each_None actions :
  foldl (λ s action, s ≫= λ s, snd <$> dispatch 1 action s) None actions
  = None.
Proof. by induction actions. Qed.

Lemma same_turn_dispatch_each actions st0 s st :
  same_turn st0 s →
  foldl (λ s action, s ≫= λ s, snd <$> dispatch 1 action s) (Some s) actions
  = Some st →
  same_turn st0 st.
Proof.
  revert s. induction actions as [|action actions IH]; intros s Hs.
  - by intros [= <-].
  - change (foldl (λ s action, s ≫= λ s, snd <$> dispatch 1 action s)
              (Some s) (action :: actions))
      with (foldl (λ s action, s ≫= λ s, snd <$> dispatch 1 action s)
              (snd <$> dispatch 1 action s) actions).
    destruct (dispatch 1 action s) as [[c s']|] eqn:Hd.
    + apply IH. by eapply same_turn_dispatch.
    + change (snd <$> None) with (@None Store).
      by rewrite dispatch_each_None.
Qed.

Lemma counting_turn : same_turn counting_store counted.
Proof.
  apply (same_turn_dispatch_each [INCREMENT; INCREMENT; DECREMENT]
           counting_store counting_store); [apply same_turn_refl|].
  vm_compute. reflexivity.
Qed.

(** X11.  Neither [set] nor [dispatch] nor the next turn removes a key
    from the model: a key that [keys()] lists is still listed after any
    calls of a turn and after the turn that follows. *)
Theorem keys_are_kept (st0 st : Store) (s : string) :
  same_turn st0 st →
  s ∈ keys st0 →
  s ∈ keys st ∧ s ∈ keys (drain st).
Proof.
  intros Hturn Hin.
  assert (s ∈ keys st) as Hst.
  { revert Hturn. apply (same_turn_keeps (λ st, s ∈ keys st)); [| |done].
    - intros key edit s0 Hs0.
      destruct (apply_edit edit (get key s0)) as [v|error] eqn:He.
      + rewrite (set_returns _ _ _ _ He). unfold keys in *. simpl.
        rewrite elem_of_Object_keys, elem_of_creation_order_set.
        right. by apply elem_of_Object_keys.
      + by rewrite (set_throws _ _ _ _ He).
    - done. }
  split; [done|]. unfold keys.
  by destruct (drain_frame st) as (-> & _).
Qed.

Lemma keys_are_kept_witness :
  same_turn counting_store
    counted
  ∧ "counter" ∈ keys counting_store
  ∧ "counter" ∈ keys (drain counted).
Proof.
  assert ("counter" ∈ keys counting_store) as Hin
    by (vm_compute; apply list_elem_of_here).
  split; [exact counting_turn|]. split; [exact Hin|].
  exact (proj2 (keys_are_kept counting_store _ "counter" counting_turn Hin)).
Defined.

(* ===================================================================== *)
(** * A reducer that throws behind middleware *)
(* ===================================================================== *)

(** X13.  When the chain is not empty and its middleware pass the action
    on, the exception of a reducer does not leave [dispatch]: it is caught
    on the way back and [dispatch] returns a promise rejected with it.
    The reducers bound after the throwing one are not run and the
    dispatching flag is reset. *)
Theorem reducer_throws_behind_middleware (depth : nat)
    (transform : Value → Value) (transforms : list (Value → Value))
    (action : Value) (st st1 st2 : Store)
    (before after : list Reducer) (reducer : Reducer) (e : Exn) :
  _middleware st = passes <$> (transform :: transforms) →
  _isDispatching st = false →
  isPlainObject action = true →
  has_property (KStr "type") action = true →
  _reducersByType st
    !! to_property_key (get_property (KStr "type") action)
  = Some (before ++ reducer :: after) →
  forEach_reducer (dispatch depth) before action st = Some (Return (), st1) →
  exec_reducer (dispatch depth) (reducer action) (with_isDispatching true st1)
  = Some (Throw e, st2) →
  dispatch (S depth) action st
  = Some (Return (Rejected e), with_isDispatching false st2).
Proof.
  intros Hmw Hflag Hplain Htype Hreducers Hbefore Hthrows.
  rewrite (dispatch_passes _ (transform :: transforms)) by done.
  rewrite <-(terminal_reentrant depth). unfold terminal.
  rewrite Hplain, Htype, Hreducers. simpl.
  by rewrite (forEach_reducer_throws _ _ _ _ _ _ _ _ _ Hbefore Hthrows).
Qed.

Lemma reducer_throws_behind_middleware_witness :
  _middleware guarded_reducers = passes <$> [λ a : Value, a]
  ∧ _isDispatching guarded_reducers = false
  ∧ isPlainObject action_A = true
  ∧ has_property (KStr "type") action_A = true
  ∧ fst <$> dispatch 1 action_A guarded_reducers
    = Some (Return (Rejected (Error "boom"))).
Proof.
  do 4 (split; [reflexivity|]).
  assert (_reducersByType guarded_reducers
            !! to_property_key (get_property (KStr "type") action_A)
          = Some ([records] ++ throws :: [marks])) as Hbound
    by (vm_compute; reflexivity).
  rewrite (reducer_throws_behind_middleware 0 (λ a, a) [] action_A
             guarded_reducers
             (with_isDispatching false
                (set (KStr "seen") (Lit action_A)
                   (with_isDispatching true guarded_reducers)).2)
             (with_isDispatching true
                (with_isDispatching false
                   (set (KStr "seen") (Lit action_A)
                      (with_isDispatching true guarded_reducers)).2))
             [records] [marks] throws (Error "boom")
             eq_refl eq_refl eq_refl eq_refl Hbound eq_refl eq_refl).
  reflexivity.
Defined.

(* ===================================================================== *)
(** * The store over objects: dictionaries *)
(* ===================================================================== *)

Section DictFacts.
Import Exact.
Variable env : Environment.
Implicit Types (d : Dict) (k key : Key) (v : Value) (st : Store).

Lemma find_ObjectPrototype k :
  find env k ObjectPrototype
  = match obj_lookup k Object_prototype_members with
    | Some v => Data v
    | None => if bool_decide (k = KStr "__proto__") then Accessor else Missing
    end.
Proof.
  unfold ObjectPrototype. simpl.
  destruct (obj_lookup k Object_prototype_members); [done|].
  by destruct (bool_decide (k = KStr "__proto__")).
Qed.

(** The names that [{}] inherits are those that the lookup finds. *)
Lemma find_inherited_name k :
  find env k ObjectPrototype = Missing ↔ inherited_name k = false.
Proof.
  rewrite find_ObjectPrototype. unfold inherited_name, obj_has.
  destruct (obj_lookup k Object_prototype_members) as [v|] eqn:E.
  - rewrite (bool_decide_eq_true_2 (is_Some (Some v))) by eauto.
    rewrite orb_true_r. split; discriminate.
  - rewrite (bool_decide_eq_false_2 (is_Some None))
      by (intros [? [=]]).
    rewrite orb_false_r. by destruct (bool_decide (k = KStr "__proto__")).
Qed.

Lemma not_inherited_assignable k d :
  find env k (proto d) = Missing → assignable env k d.
Proof. intros E. right. by rewrite E. Qed.

Lemma dict_set_assignable k v d :
  assignable env k d →
  dict_set env k v d = mkDict (obj_set k v (own d)) (proto d).
Proof.
  intros [[p Hp]|Hacc]; unfold dict_set.
  - by rewrite Hp.
  - destruct (obj_lookup k (own d)); [done|].
    by destruct (find env k (proto d)).
Qed.

Lemma dict_get_set_eq k v d :
  assignable env k d → dict_get env k (dict_set env k v d) = v.
Proof.
  intros Ha. rewrite dict_set_assignable by done.
  unfold dict_get. simpl. by rewrite obj_lookup_set_eq.
Qed.

Lemma dict_get_set_ne k k' v d :
  assignable env k d → k ≠ k' →
  dict_get env k' (dict_set env k v d) = dict_get env k' d.
Proof.
  intros Ha Hne. rewrite dict_set_assignable by done.
  unfold dict_get. simpl. by rewrite obj_lookup_set_ne.
Qed.

Lemma obj_lookup_delete_eq k (o : list (Key * Value)) :
  obj_lookup k (filter (λ p, p.1 ≠ k) o) = None.
Proof.
  induction o as [|[k' v'] o IH]; [done|].
  rewrite filter_cons. simpl. destruct (decide (k' ≠ k)) as [Hne|Heq].
  - simpl. by rewrite decide_False.
  - done.
Qed.

Lemma obj_lookup_delete_ne k k' (o : list (Key * Value)) :
  k ≠ k' → obj_lookup k' (filter (λ p, p.1 ≠ k) o) = obj_lookup k' o.
Proof.
  intros Hne. induction o as [|[k0 v0] o IH]; [done|].
  rewrite filter_cons. simpl. destruct (decide (k0 ≠ k)) as [Hne0|Heq].
  - simpl. by rewrite IH.
  - apply dec_stable in Heq as ->. by rewrite decide_False.
Qed.

Lemma dict_has_delete k d :
  find env k (proto d) = Missing → dict_has env k (dict_delete k d) = false.
Proof.
  intros E. unfold dict_has, dict_delete. simpl.
  by rewrite obj_lookup_delete_eq, E.
Qed.

Lemma deref_store_at_eq a d st : deref a (store_at a d st) = d.
Proof. unfold deref, store_at. simpl. by rewrite lookup_insert_eq. Qed.

Lemma deref_store_at_ne a b d st :
  a ≠ b → deref b (store_at a d st) = deref b st.
Proof.
  intros Hne. unfold deref, store_at. simpl. by rewrite lookup_insert_ne.
Qed.

Lemma run_listeners_return (ls : list Listener) v :
  Forall (λ l : Listener, l v = Return ()) ls → run_listeners ls v = Return ().
Proof.
  induction 1 as [|l ls Hl _ IH]; [done|]. simpl. by rewrite Hl.
Qed.

(** An armed key whose listeners return: [emit] notifies them. *)
Lemma emit_armed key v st :
  truthy (dict_get env key (_emittingByKey st)) = true →
  heard key v st →
  emit env key v st
  = (Return (), with_emitted (emitted st ++ [(key, v)]) st).
Proof.
  intros Harmed [Hall Herror]. unfold emit. rewrite Harmed. simpl.
  unfold super_emit.
  destruct (default [] (listeners st !! key)) as [|l ls] eqn:E.
  - rewrite bool_decide_eq_false_2; [done|].
    intros Hk. by apply Herror.
  - by rewrite run_listeners_return.
Qed.

(** A callback that finds no pending-write record only settles its
    promise. *)
Lemma run_task_skip t st :
  dict_has env (task_key t) (deref (task_prev t) st) = false →
  run_task env t st
  = settle (task_id t)
      (Return (dict_get env (task_key t) (deref (task_model t) st))) st.
Proof. intros E. unfold run_task. by rewrite E. Qed.
End DictFacts.

(* ===================================================================== *)
(** * The store over objects: calls of [set] in one turn *)
(* ===================================================================== *)

Section SetFacts.
Import Exact.
Variable env : Environment.
Implicit Types (d : Dict) (k key : Key) (v : Value) (st : Store).

Lemma in_turn_start key st :
  turn_start env st → in_turn env key st st.
Proof.
  intros [Hq Hprev]. split; try done.
  - destruct (obj_lookup key (own (deref (_prevValueByKey st) st)))
      as [p|] eqn:E; [|done].
    symmetry. by apply Hprev.
  - exists []. by rewrite app_nil_r.
Qed.

(** A value that is not a function is what [set] stages. *)
Lemma apply_edit_value v value :
  typeof v ≠ "function" → apply_edit env (Lit v) value = Return v.
Proof. by destruct v. Qed.

(** One more call [set(key, edit)] in the turn, whose edit returns. *)
Lemma set_in_turn key edit v st0 st :
  _model st0 ≠ _prevValueByKey st0 →
  not_inherited env key st0 →
  apply_edit env edit (get env key st) = Return v →
  in_turn env key st0 st →
  let st' := (set env key edit st).2 in
  in_turn env key st0 st'
  ∧ obj_lookup key (own (deref (_prevValueByKey st') st'))
    = Some (get env key st0)
  ∧ get env key st' = v
  ∧ microtasks st'
    = microtasks st
      ++ [mkTask (next_task st) (address st) (_model st0)
            (_prevValueByKey st0) key]
  ∧ (set env key edit st).1 = Pending (next_task st).
Proof.
  intros Hdistinct (Hm & Hp & He) Hv
    [Tm Tp Te Tl Tx Tmp Tpp Tr (ts & Tq & Tall) To].
  cbv zeta. unfold set. fold (get env key st). rewrite Hv.
  unfold get in To. rewrite Tm, Tp in *.
  set (m := _model st0) in *. set (p := _prevValueByKey st0) in *.
  assert (find env key (proto (deref p st)) = Missing) as Hp'
    by (by rewrite Tpp).
  assert (find env key (proto (deref m st)) = Missing) as Hm'
    by (by rewrite Tmp).
  (* the state after the pending-write record has been looked at *)
  set (st1 := if dict_has env key (deref p st) then st else _).
  assert (_model st1 = m ∧ _prevValueByKey st1 = p
          ∧ _emittingByKey st1 = _emittingByKey st0
          ∧ listeners st1 = listeners st0 ∧ emitted st1 = emitted st0
          ∧ microtasks st1 = microtasks st ∧ address st1 = address st
          ∧ next_task st1 = next_task st
          ∧ deref m st1 = deref m st
          ∧ proto (deref p st1) = proto (deref p st)
          ∧ obj_lookup key (own (deref p st1)) = Some (get env key st0)
          ∧ ∀ k, k ≠ key →
              obj_lookup k (own (deref p st1))
              = obj_lookup k (own (deref p st)))
    as (S1 & S2 & S3 & S4 & S5 & S6 & S7 & S8 & S9 & S10 & S11 & S12).
  { subst st1. unfold dict_has.
    destruct (obj_lookup key (own (deref p st))) as [r|] eqn:E.
    - split_and!; try done. by rewrite E, Tr.
    - rewrite Hp'. rewrite deref_store_at_ne by done.
      rewrite deref_store_at_eq.
      rewrite dict_set_assignable by (by apply not_inherited_assignable).
      simpl. rewrite obj_lookup_set_eq.
      split_and!; try done; [by rewrite Tr|].
      intros k Hne. by rewrite obj_lookup_set_ne. }
  clearbody st1.
  set (d := dict_set env key v (deref m st1)).
  assert (d = mkDict (obj_set key v (own (deref m st))) (proto (deref m st)))
    as Hd.
  { subst d. rewrite S9.
    by rewrite dict_set_assignable by (by apply not_inherited_assignable). }
  clearbody d.
  set (st2 := (schedule m p key (store_at m d st1)).2).
  assert (deref m st2 = d) as D1 by apply deref_store_at_eq.
  assert (deref p st2 = deref p st1) as D2 by (by apply deref_store_at_ne).
  assert (_model st2 = m) as M1 by exact S1.
  assert (_prevValueByKey st2 = p) as M2 by exact S2.
  assert (microtasks st2
          = microtasks st ++ [mkTask (next_task st) (address st) m p key])
    as Q.
  { change (microtasks st2)
      with (microtasks st1 ++ [mkTask (next_task st1) (address st1) m p key]).
    by rewrite S6, S7, S8. }
  assert ((schedule m p key (store_at m d st1)).1 = Pending (next_task st))
    as P by (simpl; by rewrite S8).
  assert (_emittingByKey st2 = _emittingByKey st0) as M3 by exact S3.
  assert (listeners st2 = listeners st0) as M4 by exact S4.
  assert (emitted st2 = emitted st0) as M5 by exact S5.
  clearbody st2.
  split; [split|split; [|split; [|split]]]; try done.
  - rewrite M1, D1, Hd. exact Tmp.
  - rewrite M2, D2, S10. exact Tpp.
  - by rewrite M2, D2, S11.
  - exists (ts ++ [mkTask (next_task st) (address st) m p key]).
    split; [by rewrite Q, Tq, app_assoc|].
    apply Forall_app. split; [done|]. by repeat constructor.
  - intros k Hne. destruct (To k Hne) as [To1 To2].
    rewrite M2, D2, S12 by done. split; [done|].
    unfold get. rewrite M1, D1, Hd.
    transitivity (dict_get env k (deref m st)); [|exact To2].
    unfold dict_get. simpl. by rewrite obj_lookup_set_ne.
  - by rewrite M2, D2, S11.
  - unfold get. rewrite M1, D1, Hd. unfold dict_get. simpl.
    by rewrite obj_lookup_set_eq.
Qed.

(** The calls [set(key, v1); ...; set(key, vN)] of one turn. *)
Lemma set_each_in_turn key vs vN st0 st :
  _model st0 ≠ _prevValueByKey st0 →
  not_inherited env key st0 →
  Forall (λ v, typeof v ≠ "function") (vs ++ [vN]) →
  in_turn env key st0 st →
  let st' := run_sets env (set_each key (vs ++ [vN])) st in
  in_turn env key st0 st'
  ∧ obj_lookup key (own (deref (_prevValueByKey st') st'))
    = Some (get env key st0)
  ∧ get env key st' = vN
  ∧ ∃ t ts, microtasks st' = microtasks st0 ++ t :: ts.
Proof.
  intros Hdistinct Hni. revert st.
  induction vs as [|v vs IH]; intros st Hall Hturn; cbv zeta.
  - simpl in Hall. apply Forall_inv in Hall.
    destruct (set_in_turn key (Lit vN) vN st0 st)
      as (T & Hrec & Hget & Hq & _); try done.
    { by apply apply_edit_value. }
    split; [done|]. split; [done|]. split; [done|].
    destruct Hturn as [_ _ _ _ _ _ _ _ (ts & Tq & _) _].
    change (run_sets env (set_each key ([] ++ [vN])) st)
      with (set env key (Lit vN) st).2.
    rewrite Hq, Tq, <-app_assoc. destruct ts as [|t ts]; simpl; eauto.
  - apply Forall_cons in Hall as [Hv Hall].
    change (run_sets env (set_each key ((v :: vs) ++ [vN])) st)
      with (run_sets env (set_each key (vs ++ [vN]))
              (set env key (Lit v) st).2).
    apply IH; [done|].
    apply (set_in_turn key (Lit v) v st0 st); try done.
    by apply apply_edit_value.
Qed.

(** The callbacks of [key] that run once its pending-write record is
    gone settle their promises and do nothing else. *)
Lemma run_tasks_rest key st0 ts st :
  Forall (callback_of key st0) ts →
  dict_has env key (deref (_prevValueByKey st0) st) = false →
  let st' := foldl (λ s t, run_task env t s) st ts in
  emitted st' = emitted st ∧ heap st' = heap st ∧ _model st' = _model st
  ∧ _prevValueByKey st' = _prevValueByKey st
  ∧ microtasks st' = microtasks st.
Proof.
  revert st. induction ts as [|t ts IH]; intros st Hall Hnone; [done|].
  apply Forall_cons in Hall as [(Hk & Hm & Hp) Hall]. cbv zeta. simpl.
  rewrite run_task_skip by (by rewrite Hk, Hp).
  set (s1 := settle _ _ st).
  destruct (IH s1 Hall) as (E1 & E2 & E3 & E4 & E5); [exact Hnone|].
  by rewrite E1, E2, E3, E4, E5.
Qed.
End SetFacts.

(* ===================================================================== *)
(** * The store over objects: coalescing *)
(* ===================================================================== *)

Section Coalescing.
Import Exact.
Variable env : Environment.
Implicit Types (d : Dict) (k key : Key) (v : Value) (st : Store).

(** The first callback of [key] finds the pending-write record, removes
    it, and notifies the listeners when the value has changed. *)
Lemma run_task_first key st0 t start st :
  callback_of key st0 t →
  _model st0 ≠ _prevValueByKey st0 →
  obj_lookup key (own (deref (_prevValueByKey st0) st)) = Some start →
  find env key (proto (deref (_prevValueByKey st0) st)) = Missing →
  find env key (proto (_emittingByKey st)) = Missing →
  heard key (dict_get env key (deref (_model st0) st)) st →
  let v := dict_get env key (deref (_model st0) st) in
  let st' := run_task env t st in
  emitted st'
  = emitted st ++ (if strict_eq v start then [] else [(key, v)])
  ∧ dict_has env key (deref (_prevValueByKey st0) st') = false
  ∧ deref (_model st0) st' = deref (_model st0) st
  ∧ deref (_prevValueByKey st0) st'
    = dict_delete key (deref (_prevValueByKey st0) st)
  ∧ _model st' = _model st
  ∧ _prevValueByKey st' = _prevValueByKey st
  ∧ microtasks st' = microtasks st.
Proof.
  intros (Hk & Hm & Hp) Hdistinct Hrec Hproto Hemitting Hheard. cbv zeta.
  unfold run_task. rewrite Hk, Hm, Hp.
  set (m := _model st0) in *. set (p := _prevValueByKey st0) in *.
  set (v := dict_get env key (deref m st)) in *.
  assert (dict_has env key (deref p st) = true) as ->
    by (unfold dict_has; by rewrite Hrec).
  assert (dict_get env key (deref p st) = start) as ->
    by (unfold dict_get; by rewrite Hrec).
  set (st1 := store_at p (dict_delete key (deref p st)) st).
  assert (dict_has env key (deref p st1) = false) as Hgone.
  { subst st1. rewrite deref_store_at_eq. by apply dict_has_delete. }
  assert (deref m st1 = deref m st) as Hmodel
    by (by apply deref_store_at_ne).
  assert (deref p st1 = dict_delete key (deref p st)) as Hprev
    by apply deref_store_at_eq.
  destruct (strict_eq v start); simpl.
  - by rewrite app_nil_r.
  - set (st2 := with_emittingByKey _ st1).
    rewrite (emit_armed env key v st2); [done| |exact Hheard].
    subst st2. simpl.
    by rewrite dict_get_set_eq by (by apply not_inherited_assignable).
Qed.

(** C1, amended.  In a turn that begins with no callback queued, the
    calls [set(key, v1); ...; set(key, vN)] of values that are not
    functions, for a [key] that the store's dictionaries do not inherit
    and whose listeners return, notify the listeners of [key] exactly once
    in the next turn, with [vN], when [vN] is not identical to the value
    that the model held for [key] when the turn began, and not at all when
    it is; the model holds [vN], and the store is again at the beginning
    of a turn. *)
Theorem C1_set_coalesces_own_keys (key : Key) (vs : list Value) (vN : Value)
    (st : Store) :
  _model st ≠ _prevValueByKey st →
  not_inherited env key st →
  turn_start env st →
  Forall (λ v, typeof v ≠ "function") (vs ++ [vN]) →
  heard key vN st →
  let st' := drain env (run_sets env (set_each key (vs ++ [vN])) st) in
  emitted st'
  = emitted st ++ (if strict_eq vN (get env key st) then [] else [(key, vN)])
  ∧ get env key st' = vN
  ∧ turn_start env st'.
Proof.
  intros Hdistinct Hni Hstart Hall Hheard.
  destruct (set_each_in_turn env key vs vN st st Hdistinct Hni Hall
              (in_turn_start env key st Hstart))
    as ([Tm Tp Te Tl Tx Tmp Tpp _ (ts0 & Tq & Tall) To] & Hrec & Hget
        & t & ts & Hq).
  cbv zeta. set (s := run_sets env (set_each key (vs ++ [vN])) st) in *.
  destruct Hstart as [Hempty Hrecords].
  rewrite Hempty in Tq, Hq. simpl in Tq, Hq.
  rewrite Hq in Tq. subst ts0. apply Forall_cons in Tall as [Ht Hts].
  destruct Hni as (_ & Hpp & Hep).
  unfold drain. rewrite Hq.
  simpl. set (s0 := with_microtasks [] s).
  rewrite Tp in Hrec. unfold get in Hget. rewrite Tm in Hget.
  destruct (run_task_first key st t (get env key st) s0 Ht Hdistinct)
    as (E1 & E2 & E3 & E4 & E5 & E6 & E7).
  { exact Hrec. }
  { change (deref (_prevValueByKey st) s0) with (deref (_prevValueByKey st) s).
    by rewrite <-Tp, Tpp. }
  { change (_emittingByKey s0) with (_emittingByKey s). by rewrite Te. }
  { change (deref (_model st) s0) with (deref (_model st) s).
    rewrite Hget. destruct Hheard as [H1 H2]. split.
    - change (listeners s0) with (listeners s). by rewrite Tl.
    - change (listeners s0) with (listeners s). by rewrite Tl. }
  change (deref (_model st) s0) with (deref (_model st) s) in E1, E3.
  change (deref (_prevValueByKey st) s0)
    with (deref (_prevValueByKey st) s) in E4.
  rewrite Hget in E1.
  destruct (run_tasks_rest env key st ts (run_task env t s0) Hts E2)
    as (F1 & F2 & F3 & F4 & F5).
  set (s' := foldl _ (run_task env t s0) ts) in *.
  assert (_model s' = _model st) as Gm
    by (rewrite F3, E5; exact Tm).
  assert (_prevValueByKey s' = _prevValueByKey st) as Gp
    by (rewrite F4, E6; exact Tp).
  assert (∀ a, deref a s' = deref a (run_task env t s0)) as Gd
    by (intros a; unfold deref; by rewrite F2).
  split; [|split; [|split]].
  - rewrite F1, E1. change (emitted s0) with (emitted s). by rewrite Tx.
  - unfold get. by rewrite Gm, Gd, E3.
  - by rewrite F5, E7.
  - intros k v. rewrite Gp, Gd, E4. unfold dict_delete. cbn [own].
    destruct (decide (key = k)) as [<-|Hne].
    { by rewrite obj_lookup_delete_eq. }
    rewrite obj_lookup_delete_ne by done.
    destruct (To k (not_eq_sym Hne)) as [To1 To2].
    rewrite Tp in To1. rewrite To1. intros Hk.
    unfold get. rewrite Gm, Gd, E3.
    unfold get in To2. rewrite Tm in To2. rewrite To2.
    by apply Hrecords.
Qed.
End Coalescing.

Section InheritedKeys.
Import Exact.
Variable env : Environment.
Implicit Types (d : Dict) (k key : Key) (v : Value) (st : Store).

(** X16.  For a key that names a member inherited by [_prevValueByKey],
    such as ['toString'], [set] makes no pending-write record: its
    callback compares the value set with the inherited member, not with
    the value that the model held when the turn began.  The listeners are
    notified in every turn in which the key is set to a value other than
    the member, whether the value has changed or not, and no record is
    left. *)
Theorem set_inherited_key_notifies (key : Key) (member v : Value)
    (st : Store) :
  _model st ≠ _prevValueByKey st →
  microtasks st = [] →
  obj_lookup key (own (deref (_prevValueByKey st) st)) = None →
  find env key (proto (deref (_prevValueByKey st) st)) = Data member →
  assignable env key (deref (_model st) st) →
  assignable env key (_emittingByKey st) →
  typeof v ≠ "function" →
  heard key v st →
  let st' := drain env (set env key (Lit v) st).2 in
  emitted st'
  = emitted st ++ (if strict_eq v member then [] else [(key, v)])
  ∧ get env key st' = v
  ∧ obj_lookup key (own (deref (_prevValueByKey st') st')) = None
  ∧ microtasks st' = [].
Proof.
  intros Hdistinct Hempty Hrec Hmember Hmodel Hemitting Hv Hheard. cbv zeta.
  unfold set. rewrite apply_edit_value by done.
  set (m := _model st) in *. set (p := _prevValueByKey st) in *.
  assert (dict_has env key (deref p st) = true) as ->
    by (unfold dict_has; by rewrite Hrec, Hmember).
  rewrite dict_set_assignable by done.
  set (d := mkDict (obj_set key v (own (deref m st))) (proto (deref m st))).
  set (s := (schedule m p key (store_at m d st)).2).
  assert (microtasks s = [mkTask (next_task st) (address st) m p key]) as Hq.
  { change (microtasks s)
      with (microtasks st ++ [mkTask (next_task st) (address st) m p key]).
    by rewrite Hempty. }
  unfold drain. rewrite Hq. cbn [foldl].
  unfold run_task. cbn [task_key task_model task_prev task_id].
  set (s0 := with_microtasks [] s).
  assert (deref m s0 = d) as Dm by apply deref_store_at_eq.
  assert (deref p s0 = deref p st) as Dp by (by apply deref_store_at_ne).
  rewrite Dm, Dp.
  assert (dict_has env key (deref p st) = true) as ->
    by (unfold dict_has; by rewrite Hrec, Hmember).
  assert (dict_get env key d = v) as ->
    by (unfold dict_get; simpl; by rewrite obj_lookup_set_eq).
  assert (dict_get env key (deref p st) = member) as ->
    by (unfold dict_get; by rewrite Hrec, Hmember).
  set (s1 := store_at p (dict_delete key (deref p st)) s0).
  assert (deref m s1 = d) as Dm1.
  { subst s1. by rewrite deref_store_at_ne. }
  assert (obj_lookup key (own (deref p s1)) = None) as Dp1.
  { subst s1. rewrite deref_store_at_eq. apply obj_lookup_delete_eq. }
  assert (get env key s1 = v) as Hget.
  { unfold get. change (_model s1) with m. rewrite Dm1.
    unfold dict_get. simpl. by rewrite obj_lookup_set_eq. }
  destruct (strict_eq v member); simpl.
  - by rewrite app_nil_r.
  - set (s2 := with_emittingByKey _ s1).
    rewrite (emit_armed env key v s2); [done| |exact Hheard].
    subst s2. simpl. by rewrite dict_get_set_eq.
Qed.
End InheritedKeys.

(* ===================================================================== *)
(** * The store over objects: instances of C1 *)
(* ===================================================================== *)

Lemma C1_witness :
  Exact._model Exact.counter_store ≠ Exact._prevValueByKey Exact.counter_store
  ∧ Exact.not_inherited Exact.an_environment (KStr "counter")
      Exact.counter_store
  ∧ Exact.turn_start Exact.an_environment Exact.counter_store
  ∧ Forall (λ v, typeof v ≠ "function") ([VNum 1; VNum 2] ++ [VNum 3])
  ∧ Exact.heard (KStr "counter") (VNum 3) Exact.counter_store
  ∧ Exact.emitted
      (Exact.drain Exact.an_environment
         (Exact.run_sets Exact.an_environment
            (set_each (KStr "counter") ([VNum 1; VNum 2] ++ [VNum 3]))
            Exact.counter_store))
    = [(KStr "counter", VNum 3)].
Proof.
  assert (Exact._model Exact.counter_store
          ≠ Exact._prevValueByKey Exact.counter_store) as H1
    by (vm_compute; lia).
  assert (Exact.not_inherited Exact.an_environment (KStr "counter")
            Exact.counter_store) as H2
    by (split; [|split]; reflexivity).
  assert (Exact.turn_start Exact.an_environment Exact.counter_store) as H3.
  { split; [reflexivity|]. intros k v Hk. vm_compute in Hk. discriminate. }
  assert (Forall (λ v, typeof v ≠ "function")
            ([VNum 1; VNum 2] ++ [VNum 3])) as H4
    by (repeat constructor; discriminate).
  assert (Exact.heard (KStr "counter") (VNum 3) Exact.counter_store) as H5.
  { split; [|discriminate]. vm_compute. by repeat constructor. }
  do 5 (split; [assumption|]).
  exact (proj1 (C1_set_coalesces_own_keys Exact.an_environment
                  (KStr "counter") [VNum 1; VNum 2] (VNum 3)
                  Exact.counter_store H1 H2 H3 H4 H5)).
Defined.

(** C1, as stated, fails for a value that is a function: [set] calls it
    with the previous value and stages its result, and the listeners are
    notified with the result, not with the function. *)
Lemma C1_counterexample :
  typeof (VFun 300) = "function"
  ∧ Exact.turn_start Exact.an_environment Exact.listened_store
  ∧ strict_eq (VFun 300)
      (Exact.get Exact.an_environment (KStr "x") Exact.listened_store)
    = false
  ∧ Exact.emitted
      (Exact.drain Exact.an_environment
         (Exact.run_sets Exact.an_environment
            (set_each (KStr "x") [VFun 300]) Exact.listened_store))
    = [(KStr "x", VNum 7)]
  ∧ [(KStr "x", VNum 7)] ≠ [(KStr "x", VFun 300)].
Proof.
  split; [reflexivity|]. split.
  { split; [reflexivity|]. intros k v Hk. vm_compute in Hk. discriminate. }
  split; [reflexivity|]. split; [vm_compute; reflexivity|discriminate].
Qed.

Lemma set_inherited_key_notifies_witness :
  let st := Exact.toString_store in
  let st1 :=
    Exact.drain Exact.an_environment
      (Exact.set Exact.an_environment (KStr "toString") (Lit (VNum 1)) st).2 in
  Exact.get Exact.an_environment (KStr "toString") st1 = VNum 1
  ∧ Exact.emitted
      (Exact.drain Exact.an_environment
         (Exact.set Exact.an_environment (KStr "toString") (Lit (VNum 1))
            st1).2)
    = Exact.emitted st1 ++ [(KStr "toString", VNum 1)].
Proof.
  cbv zeta. split; [vm_compute; reflexivity|].
  refine (proj1 (set_inherited_key_notifies Exact.an_environment
                   (KStr "toString") (VFun 6) (VNum 1) _ _ _ _ _ _ _ _ _)).
  - vm_compute. lia.
  - reflexivity.
  - reflexivity.
  - reflexivity.
  - left. vm_compute. eauto.
  - left. vm_compute. eauto.
  - discriminate.
  - split; [|discriminate]. vm_compute. by repeat constructor.
Defined.

(* ===================================================================== *)
(** * The store over objects: dispatch *)
(* ===================================================================== *)

Section DispatchFacts.
Import Exact.
Variable env : Environment.
Implicit Types (st : Store).

Lemma object_call_passes d transforms nextIndex nextAction index st :
  (index < Z.of_nat nextIndex)%Z →
  call env d (passes <$> transforms) nextIndex nextAction index st
  = match terminal env d nextAction st with
    | Some (c, st') =>
        Some (match transforms with [] => c | _ => caught c end,
              Z.of_nat (nextIndex + length transforms), st')
    | None => None
    end.
Proof.
  revert nextIndex index.
  induction transforms as [|t transforms IH]; intros nextIndex index Hlt;
    simpl; rewrite bool_decide_eq_false_2 by lia.
  - rewrite Nat.add_0_r. by destruct (terminal env d nextAction st) as [[c st']|].
  - rewrite IH by lia.
    destruct (terminal env d nextAction st) as [[c st']|]; [|done].
    replace (S nextIndex + length transforms)
      with (nextIndex + S (length transforms)) by lia.
    destruct transforms; by destruct c.
Qed.

Lemma object_dispatch_passes depth transforms action st :
  _isDispatching st = false → _middleware st = passes <$> transforms →
  dispatch env (S depth) action st
  = match terminal env (dispatch env depth) action st with
    | Some (c, st') =>
        Some (match transforms with [] => c | _ => caught c end, st')
    | None => None
    end.
Proof.
  intros Hflag Hmw. simpl. rewrite Hflag, Hmw, object_call_passes by lia.
  by destruct (terminal env (dispatch env depth) action st) as [[c st']|].
Qed.

(** C2, amended.  For an action that is a plain object with a [type]
    property, whose type does not name a member that [_reducersByType]
    inherits and whose reducers all return, and a chain in which every
    middleware invokes [next] once, with any action, and returns what
    [next] returned, [dispatch] returns [Promise.resolve] of the very
    action value passed to it: a promise fulfilled with that value, unless
    the action has a callable [then]. *)
Theorem C2_dispatch_resolves_with_original (depth : nat)
    (transforms : list (Value → Value)) (action : Value) (type : Key)
    (reducers : list Reducer) (st st' : Store) :
  _isDispatching st = false →
  _middleware st = passes <$> transforms →
  isPlainObject action = true →
  has_property (KStr "type") action = true →
  property_key env (get_property (KStr "type") action) = Return type →
  reducers_of env type st = Return reducers →
  forEach_reducer env (dispatch env depth) reducers action st
  = Some (Return (), st') →
  dispatch env (S depth) action st
  = Some (Return (Promise_resolve (RValue action)), st')
  ∧ (is_thenable action = false →
     dispatch env (S depth) action st = Some (Return (Resolved action), st')).
Proof.
  intros Hflag Hmw Hplain Htype Hkey Hbound Hreducers.
  assert (dispatch env (S depth) action st
          = Some (Return (Promise_resolve (RValue action)), st')) as Hd.
  { rewrite (object_dispatch_passes _ transforms) by done. unfold terminal.
    rewrite Hplain, Htype, Hkey, Hbound, Hreducers. by destruct transforms. }
  split; [done|]. intros Hthen. rewrite Hd. simpl. by rewrite Hthen.
Qed.

(** X8.  Dispatching a valid action to whose type no reducer is bound,
    through middleware that pass it on: when the type names nothing that
    [_reducersByType] inherits, [dispatch] returns [Promise.resolve] of the
    action; when it names an inherited member, such as ['constructor'],
    the member is taken for the list of reducers and a [TypeError] is
    thrown, out of [dispatch] when the chain is empty and into a rejected
    promise otherwise.  The store is unchanged. *)
Theorem dispatch_without_reducers (depth : nat)
    (transforms : list (Value → Value)) (action : Value) (type : Key)
    (st : Store) :
  _isDispatching st = false →
  _middleware st = passes <$> transforms →
  isPlainObject action = true →
  has_property (KStr "type") action = true →
  property_key env (get_property (KStr "type") action) = Return type →
  _reducersByType st !! type = None →
  dispatch env (S depth) action st
  = Some (match find env type ObjectPrototype with
          | Missing => Return (Promise_resolve (RValue action))
          | _ =>
              match transforms with
              | [] => Throw (Error "reducers.forEach is not a function")
              | _ =>
                  Return (Rejected (Error "reducers.forEach is not a function"))
              end
          end, st).
Proof.
  intros Hflag Hmw Hplain Htype Hkey Hnone.
  rewrite (object_dispatch_passes _ transforms) by done. unfold terminal.
  rewrite Hplain, Htype. cbn [negb]. rewrite Hkey.
  unfold reducers_of. rewrite Hnone.
  destruct (find env type ObjectPrototype); cbn [forEach_reducer caught];
    by destruct transforms.
Qed.
End DispatchFacts.

Lemma C2_witness :
  Exact._isDispatching Exact.replacing_store = false
  ∧ Exact._middleware Exact.replacing_store
    = passes <$> [λ _ : Value, action_B]
  ∧ isPlainObject action_A = true
  ∧ has_property (KStr "type") action_A = true
  ∧ is_thenable action_A = false
  ∧ ∃ st', Exact.dispatch Exact.an_environment 1 action_A
             Exact.replacing_store
           = Some (Return (Resolved action_A), st').
Proof.
  do 5 (split; [reflexivity|]).
  eexists.
  refine (proj2 (C2_dispatch_resolves_with_original Exact.an_environment 0
                   [λ _ : Value, action_B] action_A (KStr "A") [records]
                   Exact.replacing_store _ eq_refl eq_refl eq_refl eq_refl
                   eq_refl _ _) eq_refl).
  - vm_compute. reflexivity.
  - vm_compute. reflexivity.
Defined.

Lemma dispatch_without_reducers_witness :
  Exact._isDispatching Exact.new_store = false
  ∧ Exact._middleware Exact.new_store = passes <$> []
  ∧ isPlainObject Exact.action_constructor = true
  ∧ has_property (KStr "type") Exact.action_constructor = true
  ∧ Exact.dispatch Exact.an_environment 1 Exact.action_constructor
      Exact.new_store
    = Some (Throw (Error "reducers.forEach is not a function"),
            Exact.new_store)
  ∧ Exact.dispatch Exact.an_environment 1 action_B Exact.new_store
    = Some (Return (Resolved action_B), Exact.new_store).
Proof.
  do 4 (split; [reflexivity|]). split.
  - exact (dispatch_without_reducers Exact.an_environment 0 []
             Exact.action_constructor (KStr "constructor") Exact.new_store
             eq_refl eq_refl eq_refl eq_refl eq_refl eq_refl).
  - exact (dispatch_without_reducers Exact.an_environment 0 []
             action_B (KStr "B") Exact.new_store
             eq_refl eq_refl eq_refl eq_refl eq_refl eq_refl).
Defined.

(* ===================================================================== *)
(** * The store over objects: instances *)
(* ===================================================================== *)

Section InstanceFacts.
Import Exact.
Variable env : Environment.
Implicit Types (st : Store) (w : World).

(** [set] writes to the two dictionaries of its store and to no other
    object. *)
Lemma set_footprint key edit st a :
  a ≠ _model st → a ≠ _prevValueByKey st →
  heap (set env key edit st).2 !! a = heap st !! a.
Proof.
  intros Hm Hp. unfold set.
  destruct (dict_has env key (deref (_prevValueByKey st) st));
    destruct (apply_edit env edit _); simpl;
    by rewrite ?lookup_insert_ne by done.
Qed.

Lemma seed_footprint (f : string → Value) a_model ks st a :
  a ≠ a_model →
  heap (foldl (λ st key,
                 store_at a_model
                   (dict_set env (KStr key) (f key) (deref a_model st)) st)
          st ks) !! a
  = heap st !! a.
Proof.
  intros Hne. revert st. induction ks as [|k ks IH]; intros st; [done|].
  simpl. rewrite IH. simpl. by rewrite lookup_insert_ne.
Qed.

(** [initialize] allocates its two dictionaries and writes to no object
    made before. *)
Lemma initialize_footprint model st a :
  a ≠ next_address st → a ≠ S (next_address st) →
  heap (initialize env model st) !! a = heap st !! a.
Proof.
  intros H1 H2. unfold initialize. destruct model as [model|].
  - rewrite seed_footprint by done. simpl.
    by rewrite !lookup_insert_ne by done.
  - simpl. by rewrite !lookup_insert_ne by done.
Qed.

(** What [new Store()] does in the variant without a guard. *)
Lemma construct_unguarded w :
  let a := s_next_address (shared w) in
  new_Store_unguarded env w
  = (a,
     mkWorld
       (<[a := mkFields false empty_object [] (S a) (S (S a)) ∅ ∅]>
          (<[a := blank]> (instances w)))
       (mkShared
          (<[S (S a) := empty_object]>
             (<[S a := empty_object]> (s_heap (shared w))))
          (S (S (S a))) (s_microtasks (shared w)) (s_next_task (shared w))
          (s_settled (shared w)) (s_emitted (shared w)))
       (store w)).
Proof.
  cbv zeta. unfold new_Store_unguarded, allocate, on_instance. simpl.
  by rewrite lookup_insert_eq.
Qed.

(** A method of one instance that leaves the model of another instance
    as it is leaves what the other instance observes as it is. *)
Lemma on_instance_other (f : Store → Store) r1 r2 F1 F2 w :
  r1 ≠ r2 →
  instances w !! r1 = Some F1 →
  instances w !! r2 = Some F2 →
  heap (f (assemble r1 F1 (shared w))) !! f_model F2
  = s_heap (shared w) !! f_model F2 →
  same_observations env r2 w (on_instance r1 f w).
Proof.
  intros Hne H1 H2 Hheap.
  unfold same_observations, of_instance, on_instance. rewrite H1. simpl.
  rewrite lookup_insert_ne by done. rewrite H2. simpl.
  unfold get, keys, deref. simpl. by rewrite Hheap.
Qed.

(** C8.  In the variant of [dyad.js] whose constructor has no guard, two
    constructions yield two stores with disjoint state: they are distinct
    objects, each holds dictionaries of its own, and a [set] or an
    [initialize] performed on either does not change what [get] and
    [keys] return on the other. *)
Theorem C8_independent_instances (w : World) :
  let r1 := (new_Store_unguarded env w).1 in
  let w1 := (new_Store_unguarded env w).2 in
  let r2 := (new_Store_unguarded env w1).1 in
  let w2 := (new_Store_unguarded env w1).2 in
  r1 ≠ r2
  ∧ of_instance r1 keys w2 = Some []
  ∧ of_instance r2 keys w2 = Some []
  ∧ (∀ key edit,
        same_observations env r2 w2
          (on_instance r1 (λ st, (set env key edit st).2) w2))
  ∧ (∀ model,
        same_observations env r2 w2 (on_instance r1 (initialize env model) w2))
  ∧ (∀ key edit,
        same_observations env r1 w2
          (on_instance r2 (λ st, (set env key edit st).2) w2))
  ∧ (∀ model,
        same_observations env r1 w2 (on_instance r2 (initialize env model) w2)).
Proof.
  cbv zeta. rewrite (construct_unguarded w). cbn [fst snd].
  rewrite construct_unguarded. cbn [fst snd shared s_next_address instances].
  set (a := s_next_address (shared w)).
  set (F1 := mkFields false empty_object [] (S a) (S (S a)) ∅ ∅).
  set (F2 := mkFields false empty_object []
               (S (S (S (S a)))) (S (S (S (S (S a))))) ∅ ∅).
  set (w2 := mkWorld _ _ _).
  assert (a ≠ S (S (S a))) as Hne by lia.
  assert (instances w2 !! a = Some F1) as H1.
  { subst w2. simpl. rewrite lookup_insert_ne by lia.
    by rewrite lookup_insert_ne, lookup_insert_eq by lia. }
  assert (instances w2 !! S (S (S a)) = Some F2) as H2.
  { subst w2. simpl. by rewrite lookup_insert_eq. }
  split; [done|]. split.
  { unfold of_instance. rewrite H1. subst w2. simpl. unfold keys, deref. simpl.
    rewrite lookup_insert_ne by lia. rewrite lookup_insert_ne by lia.
    rewrite lookup_insert_ne by lia. by rewrite lookup_insert_eq. }
  split.
  { unfold of_instance. rewrite H2. subst w2. simpl. unfold keys, deref. simpl.
    rewrite lookup_insert_ne by lia. by rewrite lookup_insert_eq. }
  split; [|split; [|split]].
  - intros key edit. apply (on_instance_other _ _ _ F1 F2); try done.
    apply set_footprint; simpl; lia.
  - intros model. apply (on_instance_other _ _ _ F1 F2); try done.
    apply initialize_footprint; simpl; lia.
  - intros key edit. apply (on_instance_other _ _ _ F2 F1); try done.
    apply set_footprint; simpl; lia.
  - intros model. apply (on_instance_other _ _ _ F2 F1); try done.
    apply initialize_footprint; simpl; lia.
Qed.

(** X14.  In the TypeScript source, whose constructor returns the
    module-level [store] when it is set, a construction made once the
    module is loaded returns the module's instance, the one that
    [getInstance] returns: two constructions yield the same store, neither
    makes a dictionary, and the fields of the instance are untouched. *)
Theorem guarded_constructor_sole_instance (w : World) (s : nat) :
  store w = Some s →
  s < s_next_address (shared w) →
  let r1 := (new_Store env w).1 in
  let w1 := (new_Store env w).2 in
  let r2 := (new_Store env w1).1 in
  let w2 := (new_Store env w1).2 in
  r1 = s ∧ r2 = s ∧ getInstance w2 = Some s
  ∧ s_heap (shared w2) = s_heap (shared w)
  ∧ instances w2 !! s = instances w !! s.
Proof.
  intros Hs Hlt. cbv zeta.
  assert (∀ w', store w' = Some s → new_Store env w' = (s, (allocate w').2))
    as Hnew.
  { intros w' Hs'. unfold new_Store, allocate. simpl. by rewrite Hs'. }
  rewrite (Hnew w Hs). cbn [fst snd].
  rewrite (Hnew (allocate w).2 Hs). cbn [fst snd].
  unfold getInstance, allocate. simpl.
  split; [done|]. split; [done|]. split; [done|]. split; [done|].
  by rewrite !lookup_insert_ne by lia.
Qed.
End InstanceFacts.

(** Two stores of the variant without a guard: what is set on the first
    is not seen on the second. *)
Example two_stores :
  let construct := Exact.new_Store_unguarded Exact.an_environment in
  let w := Exact.load construct in
  let r1 := (construct w).1 in
  let r2 := (construct (construct w).2).1 in
  let w' :=
    Exact.on_instance r1
      (λ st, (Exact.set Exact.an_environment (KStr "x") (Lit (VNum 1)) st).2)
      (construct (construct w).2).2 in
  Exact.of_instance r1 (Exact.get Exact.an_environment (KStr "x")) w'
  = Some (VNum 1)
  ∧ Exact.of_instance r2 (Exact.get Exact.an_environment (KStr "x")) w'
    = Some VUndefined.
Proof. vm_compute. done. Qed.

Lemma guarded_constructor_sole_instance_witness :
  Exact.store Exact.loaded_module = Some 0
  ∧ 0 < Exact.s_next_address (Exact.shared Exact.loaded_module)
  ∧ (Exact.new_Store Exact.an_environment Exact.loaded_module).1 = 0
  ∧ (Exact.new_Store Exact.an_environment
       (Exact.new_Store Exact.an_environment Exact.loaded_module).2).1 = 0.
Proof.
  assert (0 < Exact.s_next_address (Exact.shared Exact.loaded_module))
    as Hlt by (vm_compute; lia).
  split; [reflexivity|]. split; [exact Hlt|]. split.
  - exact (proj1 (guarded_constructor_sole_instance Exact.an_environment
                    Exact.loaded_module 0 eq_refl Hlt)).
  - exact (proj1 (proj2 (guarded_constructor_sole_instance
                           Exact.an_environment Exact.loaded_module 0
                           eq_refl Hlt))).
Defined.

(* ===================================================================== *)
(** * The store over objects: the model, [initialize] and [bind] *)
(* ===================================================================== *)

Section ModelFacts.
Import Exact.
Variable env : Environment.
Implicit Types (d : Dict) (k key : Key) (v : Value) (st : Store).

(** The model after [set], when the edit returns. *)
Lemma set_model key edit v st :
  _model st ≠ _prevValueByKey st →
  apply_edit env edit (get env key st) = Return v →
  _model (set env key edit st).2 = _model st
  ∧ deref (_model st) (set env key edit st).2
    = dict_set env key v (deref (_model st) st).
Proof.
  intros Hdistinct He. unfold set. fold (get env key st). rewrite He.
  destruct (dict_has env key (deref (_prevValueByKey st) st)).
  - split; [done|]. apply deref_store_at_eq.
  - split; [done|].
    set (st1 := store_at (_prevValueByKey st) _ st).
    assert (deref (_model st) st1 = deref (_model st) st) as E
      by (by apply deref_store_at_ne).
    rewrite <-E. apply deref_store_at_eq.
Qed.

(** X3.  A call of [set] whose edit returns, for a key whose assignment
    does not reach the setter of [__proto__], is visible at once: [get]
    of the key returns the new value, the other keys keep their values,
    and the string keys listed by [keys()] are the former ones and the key
    itself. *)
Theorem set_then_get (key : Key) (edit : Edit) (v : Value) (st : Store) :
  _model st ≠ _prevValueByKey st →
  assignable env key (deref (_model st) st) →
  apply_edit env edit (get env key st) = Return v →
  get env key (set env key edit st).2 = v
  ∧ (∀ k, k ≠ key → get env k (set env key edit st).2 = get env k st)
  ∧ (∀ s, s ∈ keys (set env key edit st).2 ↔ KStr s = key ∨ s ∈ keys st).
Proof.
  intros Hdistinct Ha He.
  destruct (set_model key edit v st Hdistinct He) as [Em Ed].
  unfold get, keys. rewrite Em, Ed. split; [|split].
  - by apply dict_get_set_eq.
  - intros k Hne. by apply dict_get_set_ne.
  - intros s. rewrite dict_set_assignable by done. simpl.
    by rewrite !elem_of_Object_keys, elem_of_creation_order_set.
Qed.

(** X17.  A call of [set] for the key ['__proto__'], while the model
    inherits the accessor of [Object.prototype], stores nothing under
    that key: an object or [null] becomes the prototype of the model, any
    other value is ignored; the model's own properties, and so [keys()],
    are as before. *)
Theorem set_proto_replaces_prototype (edit : Edit) (v : Value) (st : Store) :
  _model st ≠ _prevValueByKey st →
  obj_lookup (KStr "__proto__") (own (deref (_model st) st)) = None →
  find env (KStr "__proto__") (proto (deref (_model st) st)) = Accessor →
  apply_edit env edit (get env (KStr "__proto__") st) = Return v →
  let st' := (set env (KStr "__proto__") edit st).2 in
  get env (KStr "__proto__") st = proto (deref (_model st) st)
  ∧ own (deref (_model st') st') = own (deref (_model st) st)
  ∧ keys st' = keys st
  ∧ proto (deref (_model st') st')
    = if object_or_null v then v else proto (deref (_model st) st).
Proof.
  intros Hdistinct Hown Hacc He. cbv zeta.
  destruct (set_model _ edit v st Hdistinct He) as [Em Ed].
  unfold keys. rewrite Em, Ed. unfold get, dict_get, dict_set.
  rewrite Hown, Hacc. by destruct (object_or_null v).
Qed.

(** What the seeding loop of [initialize] builds, when no key of the seed
    is ['__proto__']. *)
Lemma seed_model (f : string → Value) a ks o st :
  (∀ s, s ∈ ks → s ≠ "__proto__") →
  deref a st = mkDict o ObjectPrototype →
  deref a (foldl (λ st (key : string),
                    store_at a (dict_set env (KStr key) (f key) (deref a st))
                      st) st ks)
  = mkDict (foldl (λ m (key : string), obj_set (KStr key) (f key) m) o ks)
      ObjectPrototype.
Proof.
  revert o st. induction ks as [|k ks IH]; intros o st Hks Hd; [done|].
  simpl. apply IH; [by intros s ?; apply Hks; right|].
  rewrite deref_store_at_eq, Hd. apply dict_set_assignable. right.
  cbn [proto]. rewrite find_ObjectPrototype.
  destruct (obj_lookup (KStr k) Object_prototype_members); [done|].
  rewrite bool_decide_eq_false_2; [done|].
  intros [= ->]. by apply (Hks "__proto__"); [left|].
Qed.

Lemma seed_frame (f : string → Value) a ks st :
  let st' :=
    foldl (λ st (key : string),
             store_at a (dict_set env (KStr key) (f key) (deref a st)) st)
      st ks in
  _model st' = _model st ∧ _reducersByType st' = _reducersByType st
  ∧ _middleware st' = _middleware st ∧ listeners st' = listeners st
  ∧ _isDispatching st' = _isDispatching st.
Proof.
  revert st. induction ks as [|k ks IH]; intros st; [done|].
  cbv zeta. simpl. by destruct (IH (store_at a
    (dict_set env (KStr k) (f k) (deref a st)) st)) as (-> & -> & -> & -> & ->).
Qed.

(** X4.  After [initialize(model)], for a [model] without a key
    ['__proto__'], the store holds exactly the own enumerable string
    properties of [model]: [get] returns for each string key what [model]
    holds, and for the others what [{}] inherits from [Object.prototype]
    (a member such as [toString], or [undefined]); a symbol key of
    [model] is not copied; [keys()] lists exactly the string keys of
    [model].  Nothing is bound or registered any more.  Without a model
    [keys()] is empty and [get] returns the inherited members. *)
Theorem initialize_seeds (model : JsObject Value) (st : Store) :
  KStr "__proto__" ∉ creation_order model →
  let st' := initialize env (Some model) st in
  (∀ s, get env (KStr s) st'
        = match obj_lookup (KStr s) model with
          | Some v => v
          | None => dict_get env (KStr s) empty_object
          end)
  ∧ (∀ id, get env (KSym id) st' = VUndefined)
  ∧ (∀ s, s ∈ keys st' ↔ KStr s ∈ creation_order model)
  ∧ _reducersByType st' = ∅ ∧ _middleware st' = [] ∧ listeners st' = ∅
  ∧ _isDispatching st' = false
  ∧ keys (initialize env None st) = []
  ∧ (∀ k, get env k (initialize env None st) = dict_get env k empty_object).
Proof.
  intros Hproto. cbv zeta.
  set (a := next_address st).
  set (st0 :=
         mkStore (address st) false empty_object [] a (S a) ∅ ∅
           (<[S a := empty_object]> (<[a := empty_object]> (heap st)))
           (S (S a)) (microtasks st) (next_task st) (settled st) (emitted st)).
  set (f := λ key : string, obj_get (KStr key) model).
  change (initialize env None st) with st0.
  change (initialize env (Some model) st)
    with (foldl (λ st (key : string),
                   store_at a (dict_set env (KStr key) (f key) (deref a st))
                     st) st0 (Object_keys model)).
  set (st' := foldl _ st0 (Object_keys model)).
  assert (deref a st0 = mkDict [] ObjectPrototype) as Hd0.
  { unfold deref. subst st0. simpl.
    by rewrite lookup_insert_ne, lookup_insert_eq by lia. }
  assert (∀ s, s ∈ Object_keys model → s ≠ "__proto__") as Hks.
  { intros s Hin ->. by apply Hproto, elem_of_Object_keys. }
  assert (deref a st'
          = mkDict (foldl (λ m (key : string), obj_set (KStr key) (f key) m) []
                      (Object_keys model)) ObjectPrototype) as Hd
    by (by apply seed_model).
  assert (_model st' = a ∧ _reducersByType st' = ∅ ∧ _middleware st' = []
          ∧ listeners st' = ∅ ∧ _isDispatching st' = false)
    as (Em & Er & Emw & El & Ef)
    by apply (seed_frame f a (Object_keys model) st0).
  assert (∀ s, obj_lookup (KStr s)
                 (foldl (λ m (key : string), obj_set (KStr key) (f key) m) []
                    (Object_keys model))
               = obj_lookup (KStr s) model) as Hlookup.
  { intros s. rewrite (seeded_lookup f). simpl.
    destruct (decide (s ∈ Object_keys model)) as [Hin|Hin].
    - apply elem_of_Object_keys, obj_lookup_Some_elem in Hin as [v Hv].
      subst f. unfold obj_get. by rewrite Hv.
    - rewrite elem_of_Object_keys, <-obj_lookup_Some_elem in Hin.
      symmetry. by apply eq_None_not_Some. }
  clearbody st'.
  split; [|split; [|split; [|split; [|split; [|split; [|split; [|split]]]]]]];
    try done.
  - intros s. unfold get. rewrite Em, Hd. unfold dict_get at 1. simpl.
    rewrite Hlookup. by destruct (obj_lookup (KStr s) model).
  - intros id. unfold get. rewrite Em, Hd. unfold dict_get. simpl.
    by rewrite (seeded_lookup_symbol f).
  - intros s. unfold keys. rewrite Em, Hd. simpl.
    by rewrite elem_of_Object_keys, <-!obj_lookup_Some_elem, Hlookup.
  - unfold keys. change (_model st0) with a. by rewrite Hd0.
  - intros k. unfold get. change (_model st0) with a. by rewrite Hd0.
Qed.

(** The loop of [bind] over types that [_reducersByType] does not
    inherit. *)
Lemma bind_each_ordinary (actions : JsObject Reducer) (types : list string)
    (st : Store) :
  (∀ s, s ∈ types → inherited_name (KStr s) = false) →
  bind_each env actions types st
  = (Return (),
     with_reducersByType
       (foldl (λ m type,
                 match obj_lookup (KStr type) actions with
                 | Some reducer =>
                     <[KStr type := default [] (m !! KStr type) ++ [reducer]]> m
                 | None => m
                 end) (_reducersByType st) types) st).
Proof.
  revert st. induction types as [|type types IH]; intros st Hall.
  - by destruct st.
  - cbn [bind_each foldl].
    destruct (obj_lookup (KStr type) actions) as [reducer|].
    + destruct (_reducersByType st !! KStr type) as [reducers|] eqn:E.
      * by rewrite IH by (by intros s ?; apply Hall; right).
      * assert (find env (KStr type) ObjectPrototype = Missing) as ->
          by (apply find_inherited_name, Hall; by left).
        by rewrite IH by (by intros s ?; apply Hall; right).
    + by rewrite IH by (by intros s ?; apply Hall; right).
Qed.

(** The loop of [bind] reaches a type that [_reducersByType] inherits. *)
Lemma bind_each_inherited (actions : JsObject Reducer) (types : list string)
    (s : string) (st : Store) :
  s ∈ types →
  (∀ t, t ∈ types → is_Some (obj_lookup (KStr t) actions)) →
  inherited_name (KStr s) = true →
  _reducersByType st !! KStr s = None →
  ∃ st',
    bind_each env actions types st
    = (Throw (Error "this._reducersByType[type].push is not a function"), st').
Proof.
  intros Hin Hall Hs. revert st.
  induction types as [|type types IH]; intros st Hnone.
  - by apply elem_of_nil in Hin.
  - cbn [bind_each]. destruct (Hall type) as [reducer ->]; [by left|].
    assert (find env (KStr s) ObjectPrototype ≠ Missing) as Hfound.
    { intros E%find_inherited_name. congruence. }
    destruct (decide (type = s)) as [->|Hne].
    + rewrite Hnone. destruct (find env (KStr s) ObjectPrototype); eauto.
      done.
    + assert (s ∈ types) as Hin'
        by (apply elem_of_cons in Hin as [?|?]; [congruence|done]).
      assert (∀ t, t ∈ types → is_Some (obj_lookup (KStr t) actions)) as Hall'
        by (by intros t ?; apply Hall; right).
      destruct (_reducersByType st !! KStr type) as [reducers|].
      * apply (IH Hin' Hall'). simpl.
        rewrite lookup_insert_ne; [done|]. by intros [= ->].
      * destruct (find env (KStr type) ObjectPrototype); eauto.
        apply (IH Hin' Hall'). simpl.
        rewrite lookup_insert_ne; [done|]. by intros [= ->].
Qed.

(** X6.  [bind(actions)], when no string key of [actions] names a member
    that [_reducersByType] inherits, is additive: for every string key of
    [actions] its reducer is added after those already bound to that
    type, which stay bound in their order; the types that [actions] does
    not name, and the symbol keys of [actions], change nothing.  When a
    key of [actions] names an inherited member to which nothing is bound,
    such as ['constructor'], [bind] throws a [TypeError]. *)
Theorem bind_adds (actions : JsObject Reducer) (st : Store) :
  NoDup (creation_order actions) →
  ((∀ s, s ∈ Object_keys actions → inherited_name (KStr s) = false) →
   ∃ st',
     bind env actions st = (Return (), st')
     ∧ (∀ type,
          _reducersByType st' !! KStr type
          = match obj_lookup (KStr type) actions with
            | Some reducer =>
                Some (default [] (_reducersByType st !! KStr type)
                        ++ [reducer])
            | None => _reducersByType st !! KStr type
            end)
     ∧ (∀ id, _reducersByType st' !! KSym id = _reducersByType st !! KSym id))
  ∧ (∀ s,
       s ∈ Object_keys actions → inherited_name (KStr s) = true →
       _reducersByType st !! KStr s = None →
       ∃ st',
         bind env actions st
         = (Throw (Error "this._reducersByType[type].push is not a function"),
            st')).
Proof.
  intros Hnd.
  assert (∀ s, s ∈ Object_keys actions
               → is_Some (obj_lookup (KStr s) actions)) as Hall.
  { intros s Hin. by apply obj_lookup_Some_elem, elem_of_Object_keys. }
  split.
  - intros Hordinary. eexists. split; [by apply bind_each_ordinary|].
    simpl. split.
    + intros type.
      rewrite bound_lookup; [|by apply NoDup_Object_keys|done].
      destruct (decide (type ∈ Object_keys actions)) as [Hin|Hin].
      * by destruct (Hall type Hin) as [r ->].
      * rewrite elem_of_Object_keys, <-obj_lookup_Some_elem in Hin.
        apply eq_None_not_Some in Hin. by rewrite Hin.
    + intros id. by rewrite bound_lookup; [|by apply NoDup_Object_keys|].
  - intros s Hin Hs Hnone. by apply (bind_each_inherited actions _ s).
Qed.
End ModelFacts.

Lemma set_then_get_witness :
  Exact._model Exact.counter_store ≠ Exact._prevValueByKey Exact.counter_store
  ∧ Exact.assignable Exact.an_environment (KStr "counter")
      (Exact.deref (Exact._model Exact.counter_store) Exact.counter_store)
  ∧ Exact.apply_edit Exact.an_environment (Fn (adds 1))
      (Exact.get Exact.an_environment (KStr "counter") Exact.counter_store)
    = Return (VNum 1)
  ∧ Exact.get Exact.an_environment (KStr "counter")
      (Exact.set Exact.an_environment (KStr "counter") (Fn (adds 1))
         Exact.counter_store).2
    = VNum 1.
Proof.
  assert (Exact._model Exact.counter_store
          ≠ Exact._prevValueByKey Exact.counter_store) as H1
    by (vm_compute; lia).
  assert (Exact.assignable Exact.an_environment (KStr "counter")
            (Exact.deref (Exact._model Exact.counter_store)
               Exact.counter_store)) as H2
    by (left; vm_compute; eauto).
  split; [exact H1|]. split; [exact H2|]. split; [reflexivity|].
  exact (proj1 (set_then_get Exact.an_environment (KStr "counter")
                  (Fn (adds 1)) (VNum 1) Exact.counter_store H1 H2 eq_refl)).
Defined.

Lemma set_proto_replaces_prototype_witness :
  let st' :=
    (Exact.set Exact.an_environment (KStr "__proto__")
       (Lit (VObj 130 ObjectPrototype [(KStr "a", VNum 1)]))
       Exact.new_store).2 in
  Exact.get Exact.an_environment (KStr "a") Exact.new_store = VUndefined
  ∧ Exact.get Exact.an_environment (KStr "a") st' = VNum 1
  ∧ Exact.keys st' = Exact.keys Exact.new_store.
Proof.
  cbv zeta. split; [reflexivity|]. split; [vm_compute; reflexivity|].
  refine (proj1 (proj2 (proj2 (set_proto_replaces_prototype
                   Exact.an_environment
                   (Lit (VObj 130 ObjectPrototype [(KStr "a", VNum 1)]))
                   (VObj 130 ObjectPrototype [(KStr "a", VNum 1)])
                   Exact.new_store _ eq_refl eq_refl eq_refl)))).
  vm_compute. lia.
Defined.

Lemma initialize_seeds_witness :
  (KStr "__proto__" ∉ creation_order [(KStr "b", VNum 1)])
  ∧ Exact.get Exact.an_environment (KStr "b")
      (Exact.initialize Exact.an_environment (Some [(KStr "b", VNum 1)])
         Exact.new_store)
    = VNum 1
  ∧ Exact.get Exact.an_environment (KStr "constructor")
      (Exact.initialize Exact.an_environment (Some [(KStr "b", VNum 1)])
         Exact.new_store)
    = VFun 1.
Proof.
  assert (KStr "__proto__" ∉ creation_order [(KStr "b", VNum 1)]) as H
    by (intros [=]%list_elem_of_singleton).
  split; [exact H|]. split.
  - exact (proj1 (initialize_seeds Exact.an_environment [(KStr "b", VNum 1)]
                    Exact.new_store H) "b").
  - exact (proj1 (initialize_seeds Exact.an_environment [(KStr "b", VNum 1)]
                    Exact.new_store H) "constructor").
Defined.

Lemma bind_adds_witness :
  NoDup (creation_order [(KStr "A", marks)])
  ∧ (∃ st',
       Exact.bind Exact.an_environment [(KStr "A", marks)] Exact.new_store
       = (Return (), st')
       ∧ Exact._reducersByType st' !! KStr "A" = Some [marks])
  ∧ NoDup (creation_order [(KStr "constructor", marks)])
  ∧ ∃ st',
      Exact.bind Exact.an_environment [(KStr "constructor", marks)]
        Exact.new_store
      = (Throw (Error "this._reducersByType[type].push is not a function"),
         st').
Proof.
  assert (∀ s r, NoDup (creation_order [(KStr s, r : Reducer)])) as Hnd
    by (intros s r; repeat constructor; by intros ?%elem_of_nil).
  split; [apply Hnd|]. split; [|split; [apply Hnd|]].
  - destruct (proj1 (bind_adds Exact.an_environment [(KStr "A", marks)]
                       Exact.new_store (Hnd _ _)))
      as (st' & Hb & Hl & _).
    + intros s Hin. vm_compute in Hin.
      apply list_elem_of_singleton in Hin as ->. reflexivity.
    + exists st'. split; [exact Hb|]. exact (Hl "A").
  - refine (proj2 (bind_adds Exact.an_environment
                     [(KStr "constructor", marks)] Exact.new_store (Hnd _ _))
              "constructor" _ eq_refl eq_refl).
    vm_compute. by left.
Defined.

(* ===================================================================== *)
(** * The store over objects: the promise of [set] *)
(* ===================================================================== *)

Section PromiseFacts.
Import Exact.
Variable env : Environment.
Implicit Types (d : Dict) (k key : Key) (v : Value) (st : Store).

(** What the emitter's [emit] returns or throws depends on the listeners
    only, and it changes nothing but the trace. *)
Lemma super_emit_frame key v st st' :
  listeners st' = listeners st →
  (super_emit env key v st').1 = (super_emit env key v st).1
  ∧ _emittingByKey (super_emit env key v st').2 = _emittingByKey st'
  ∧ settled (super_emit env key v st').2 = settled st'.
Proof.
  intros El. unfold super_emit. rewrite El.
  destruct (default [] (listeners st !! key)); [|done].
  by destruct (bool_decide (key = KStr "error")).
Qed.

(** The first callback of [key] returns the value when nobody is notified
    or the listeners return, and throws what the emitter throws otherwise;
    the key is disarmed again. *)
Lemma run_task_first_settles key st0 t start st :
  callback_of key st0 t →
  _model st0 ≠ _prevValueByKey st0 →
  obj_lookup key (own (deref (_prevValueByKey st0) st)) = Some start →
  find env key (proto (_emittingByKey st)) = Missing →
  let v := dict_get env key (deref (_model st0) st) in
  let st' := run_task env t st in
  settled st' !! task_id t
  = Some (if strict_eq v start then Return v
          else match (super_emit env key v st).1 with
               | Return _ => Return v
               | Throw e => Throw e
               end)
  ∧ (strict_eq v start = false →
     dict_get env key (_emittingByKey st') = VBool false).
Proof.
  intros (Hk & Hm & Hp) Hdistinct Hrec Hemitting. cbv zeta.
  unfold run_task. rewrite Hk, Hm, Hp.
  set (m := _model st0) in *. set (p := _prevValueByKey st0) in *.
  set (v := dict_get env key (deref m st)) in *.
  assert (dict_has env key (deref p st) = true) as ->
    by (unfold dict_has; by rewrite Hrec).
  assert (dict_get env key (deref p st) = start) as ->
    by (unfold dict_get; by rewrite Hrec).
  set (st1 := store_at p (dict_delete key (deref p st)) st).
  destruct (strict_eq v start); cbn [negb].
  - split; [|done]. simpl. by rewrite lookup_insert_eq.
  - cbv zeta. change (_emittingByKey st1) with (_emittingByKey st).
    set (e := dict_set env key (VBool true) (_emittingByKey st)).
    assert (e = mkDict (obj_set key (VBool true) (own (_emittingByKey st)))
                  (proto (_emittingByKey st))) as He
      by (by apply dict_set_assignable, not_inherited_assignable).
    set (st2 := with_emittingByKey e st1).
    assert (emit env key v st2 = super_emit env key v st2) as ->.
    { unfold emit. change (_emittingByKey st2) with e.
      rewrite He. unfold dict_get. simpl. by rewrite obj_lookup_set_eq. }
    destruct (super_emit_frame key v st st2 eq_refl) as (E1 & E2 & E3).
    destruct (super_emit env key v st2) as [c st3]. simpl in E1, E2, E3.
    rewrite <-E1. change (_emittingByKey st2) with e in E2.
    assert (dict_get env key (dict_set env key (VBool false) e) = VBool false)
      as Hdisarmed.
    { apply dict_get_set_eq. left. rewrite He. simpl.
      rewrite obj_lookup_set_eq. eauto. }
    destruct c as [[]|err]; simpl; rewrite lookup_insert_eq, E2;
      (split; [done|by intros _]).
Qed.

(** X12.  A call of [set] at the beginning of a turn, for a key that the
    store's dictionaries do not inherit and with an edit that returns [v],
    returns a promise that the next turn settles: it is resolved with [v]
    when [v] is identical to the value that the model held, or when the
    emitter's [emit] returns; it is rejected with what the emitter throws
    when that throws, as it does for the key ['error'] without a listener
    and for a listener that throws.  The key is disarmed in either
    case. *)
Theorem set_promise_settles (key : Key) (edit : Edit) (v : Value)
    (st : Store) :
  _model st ≠ _prevValueByKey st →
  not_inherited env key st →
  turn_start env st →
  apply_edit env edit (get env key st) = Return v →
  let st' := drain env (set env key edit st).2 in
  (set env key edit st).1 = Pending (next_task st)
  ∧ settled st' !! next_task st
    = Some (if strict_eq v (get env key st) then Return v
            else match (super_emit env key v st).1 with
                 | Return _ => Return v
                 | Throw e => Throw e
                 end)
  ∧ (strict_eq v (get env key st) = false →
     dict_get env key (_emittingByKey st') = VBool false).
Proof.
  intros Hdistinct Hni Hstart He. cbv zeta.
  destruct (set_in_turn env key edit v st st Hdistinct Hni He
              (in_turn_start env key st Hstart))
    as ([Tm Tp Te Tl Tx Tmp Tpp _ _ _] & Hrec & Hget & Hq & Hpromise).
  split; [exact Hpromise|].
  set (s := (set env key edit st).2) in *.
  destruct Hstart as [Hempty _]. rewrite Hempty in Hq. simpl in Hq.
  destruct Hni as (_ & _ & Hep).
  unfold drain. rewrite Hq. cbn [foldl].
  set (t := mkTask _ _ _ _ _). set (s0 := with_microtasks [] s).
  rewrite Tp in Hrec. unfold get in Hget. rewrite Tm in Hget.
  destruct (run_task_first_settles key st t (get env key st) s0)
    as [E1 E2]; try done.
  { change (_emittingByKey s0) with (_emittingByKey s). by rewrite Te. }
  change (deref (_model st) s0) with (deref (_model st) s) in E1, E2.
  rewrite Hget in E1, E2.
  destruct (super_emit_frame key v st s0) as (F & _ & _).
  { change (listeners s0) with (listeners s). exact Tl. }
  rewrite F in E1. by split.
Qed.
End PromiseFacts.

Lemma set_promise_settles_witness :
  Exact._model Exact.new_store ≠ Exact._prevValueByKey Exact.new_store
  ∧ Exact.not_inherited Exact.an_environment (KStr "error") Exact.new_store
  ∧ Exact.turn_start Exact.an_environment Exact.new_store
  ∧ Exact.settled
      (Exact.drain Exact.an_environment
         (Exact.set Exact.an_environment (KStr "error") (Lit (VNum 1))
            Exact.new_store).2)
    !! 0
    = Some (Throw (Error "Unhandled error.")).
Proof.
  assert (Exact._model Exact.new_store ≠ Exact._prevValueByKey Exact.new_store)
    as H1 by (vm_compute; lia).
  assert (Exact.not_inherited Exact.an_environment (KStr "error")
            Exact.new_store) as H2
    by (split; [|split]; reflexivity).
  assert (Exact.turn_start Exact.an_environment Exact.new_store) as H3.
  { split; [reflexivity|]. intros k v Hk. vm_compute in Hk. discriminate. }
  do 3 (split; [assumption|]).
  exact (proj1 (proj2 (set_promise_settles Exact.an_environment
                         (KStr "error") (Lit (VNum 1)) (VNum 1)
                         Exact.new_store H1 H2 H3 eq_refl))).
Defined.

(* ===================================================================== *)
(** * The store over objects: reachable stores *)
(* ===================================================================== *)

Section ObjectKeeps.
Import Exact.
Variable env : Environment.
Variable P : Store → Prop.
Hypothesis P_set : ∀ key edit st, P st → P (set env key edit st).2.
Hypothesis P_flag : ∀ b st, P st → P (with_isDispatching b st).

Lemma object_exec_reducer_keeps d p st c st' :
  keeps P d → P st → exec_reducer env d p st = Some (c, st') → P st'.
Proof.
  intros Hd. revert st.
  induction p as [|e|k cont IH|k edit cont IH|action cont IH];
    intros st HP; simpl.
  - by intros [= _ <-].
  - by intros [= _ <-].
  - by apply IH.
  - destruct (set env k edit st) as [promise st1] eqn:Hset.
    apply IH. replace st1 with (set env k edit st).2 by (by rewrite Hset).
    by apply P_set.
  - destruct (d action st) as [[c1 st1]|] eqn:Hd1; [|done].
    apply IH. by eapply Hd.
Qed.

Lemma object_forEach_reducer_keeps d reducers nextAction st c st' :
  keeps P d → P st →
  forEach_reducer env d reducers nextAction st = Some (c, st') → P st'.
Proof.
  intros Hd. revert st.
  induction reducers as [|reducer reducers IH]; intros st HP; simpl.
  - by intros [= _ <-].
  - destruct (exec_reducer env d (reducer nextAction)
                (with_isDispatching true st))
      as [[c1 st1]|] eqn:Hexec; [|done].
    apply object_exec_reducer_keeps in Hexec; [|done|by apply P_flag].
    destruct c1 as [[]|e].
    + apply IH. by apply P_flag.
    + intros [= _ <-]. by apply P_flag.
Qed.

Lemma object_terminal_keeps d nextAction st c st' :
  keeps P d → P st → terminal env d nextAction st = Some (c, st') → P st'.
Proof.
  intros Hd HP. unfold terminal.
  destruct (negb (isPlainObject nextAction)); [by intros [= _ <-]|].
  destruct (negb (has_property (KStr "type") nextAction));
    [by intros [= _ <-]|].
  destruct (property_key env _) as [type|e]; [|by intros [= _ <-]].
  destruct (reducers_of env type st) as [reducers|e]; [|by intros [= _ <-]].
  destruct (forEach_reducer env d reducers nextAction st)
    as [[c1 st1]|] eqn:Hloop; [|done].
  apply object_forEach_reducer_keeps in Hloop; [|done..].
  by destruct c1; intros [= _ <-].
Qed.

Lemma object_exec_middleware_keeps d next p index st c index' st' :
  keeps P d → next_keeps P next → P st →
  exec_middleware env d next p index st = Some (c, index', st') → P st'.
Proof.
  intros Hd Hnext. revert index st.
  induction p as [r|e|k cont IH|action cont IH|a cont IH];
    intros index st HP; simpl.
  - by intros [= _ _ <-].
  - by intros [= _ _ <-].
  - by apply IH.
  - destruct (d action st) as [[c1 st1]|] eqn:Hd1; [|done].
    apply IH. by eapply Hd.
  - destruct (next a index st) as [[[c1 index1] st1]|] eqn:Hn1; [|done].
    apply IH. by eapply Hnext.
Qed.

Lemma object_call_keeps d remaining nextIndex nextAction :
  keeps P d → next_keeps P (λ _, call env d remaining nextIndex nextAction).
Proof.
  intros Hd. revert nextIndex.
  induction remaining as [|nextMiddleware remaining IH];
    intros nextIndex _ index st c index' st' HP; simpl.
  - case_bool_decide; [by intros [= _ _ <-]|].
    destruct (terminal env d nextAction st) as [[c1 st1]|] eqn:Hterm; [|done].
    intros [= _ _ <-]. by eapply object_terminal_keeps.
  - case_bool_decide; [by intros [= _ _ <-]|].
    destruct (exec_middleware _ _ _ _ _ _) as [[[c1 index1] st1]|] eqn:Hexec;
      [|done].
    eapply object_exec_middleware_keeps in Hexec; [|done|apply IH|done].
    by destruct c1; intros [= _ _ <-].
Qed.

Lemma object_dispatch_keeps depth : keeps P (dispatch env depth).
Proof.
  induction depth as [|depth IH]; intros a st c st' HP; simpl;
    (destruct (_isDispatching st); [by intros [= _ <-]|]); [done|].
  destruct (call _ _ _ _ _ _ _) as [[[c1 index1] st1]|] eqn:Hcall; [|done].
  intros [= _ <-]. by eapply (object_call_keeps _ _ 0 a IH a) in Hcall.
Qed.
End ObjectKeeps.

Section ReachableFacts.
Import Exact.
Variable env : Environment.
Implicit Types (st : Store).

Lemma object_set_frame key edit st :
  _isDispatching (set env key edit st).2 = _isDispatching st
  ∧ _emittingByKey (set env key edit st).2 = _emittingByKey st.
Proof.
  unfold set.
  destruct (dict_has env key (deref (_prevValueByKey st) st));
    by destruct (apply_edit env edit _).
Qed.

(** The loop over the reducers leaves the flag reset. *)
Lemma object_forEach_reducer_idle d reducers nextAction st c st' :
  _isDispatching st = false →
  forEach_reducer env d reducers nextAction st = Some (c, st') →
  _isDispatching st' = false.
Proof.
  revert st. induction reducers as [|reducer reducers IH]; intros st Hflag;
    simpl.
  - by intros [= _ <-].
  - destruct (exec_reducer env d _ _) as [[[[]|e] st1]|]; [| |done].
    + by apply IH.
    + by intros [= _ <-].
Qed.

Lemma object_terminal_idle d nextAction st c st' :
  _isDispatching st = false →
  terminal env d nextAction st = Some (c, st') → _isDispatching st' = false.
Proof.
  intros Hflag. unfold terminal.
  destruct (negb (isPlainObject nextAction)); [by intros [= _ <-]|].
  destruct (negb (has_property (KStr "type") nextAction));
    [by intros [= _ <-]|].
  destruct (property_key env _) as [type|e]; [|by intros [= _ <-]].
  destruct (reducers_of env type st) as [reducers|e]; [|by intros [= _ <-]].
  destruct (forEach_reducer env d reducers nextAction st)
    as [[c1 st1]|] eqn:Hloop; [|done].
  apply object_forEach_reducer_idle in Hloop; [|done].
  by destruct c1; intros [= _ <-].
Qed.

Lemma object_call_idle d remaining nextIndex nextAction :
  keeps (λ st, _isDispatching st = false) d →
  next_keeps (λ st, _isDispatching st = false)
    (λ _, call env d remaining nextIndex nextAction).
Proof.
  intros Hd. revert nextIndex.
  induction remaining as [|nextMiddleware remaining IH];
    intros nextIndex _ index st c index' st' Hflag; simpl.
  - case_bool_decide; [by intros [= _ _ <-]|].
    destruct (terminal env d nextAction st) as [[c1 st1]|] eqn:Hterm; [|done].
    intros [= _ _ <-]. by eapply object_terminal_idle.
  - case_bool_decide; [by intros [= _ _ <-]|].
    destruct (exec_middleware _ _ _ _ _ _) as [[[c1 index1] st1]|] eqn:Hexec;
      [|done].
    eapply (object_exec_middleware_keeps env
              (λ st, _isDispatching st = false)) in Hexec;
      [|done|apply IH|done].
    by destruct c1; intros [= _ _ <-].
Qed.

Lemma object_dispatch_idle depth :
  keeps (λ st, _isDispatching st = false) (dispatch env depth).
Proof.
  induction depth as [|depth IH]; intros a st c st' Hflag; simpl;
    rewrite Hflag; [done|].
  destruct (call _ _ _ _ _ _ _) as [[[c1 index1] st1]|] eqn:Hcall; [|done].
  intros [= _ <-]. by eapply (object_call_idle _ _ 0 a IH a) in Hcall.
Qed.

Lemma object_emit_frame key nextValue st :
  _isDispatching (emit env key nextValue st).2 = _isDispatching st
  ∧ _emittingByKey (emit env key nextValue st).2 = _emittingByKey st.
Proof.
  unfold emit. destruct (negb _).
  - by destruct (key_text key).
  - unfold super_emit. destruct (default [] (listeners st !! key)); [|done].
    by destruct (bool_decide (key = KStr "error")).
Qed.

(** Arming and disarming a key leaves the flags of the other keys. *)
Lemma disarm_disarmed key (e : Dict) :
  proto e = ObjectPrototype →
  (∀ k v, obj_lookup k (own e) = Some v → v = VBool false) →
  let e' :=
    dict_set env key (VBool false) (dict_set env key (VBool true) e) in
  proto e' = ObjectPrototype
  ∧ ∀ k v, obj_lookup k (own e') = Some v → v = VBool false.
Proof.
  intros Hproto Hown. cbv zeta.
  assert (assignable env key e →
          proto (dict_set env key (VBool false)
                   (dict_set env key (VBool true) e)) = ObjectPrototype
          ∧ ∀ k v,
              obj_lookup k
                (own (dict_set env key (VBool false)
                        (dict_set env key (VBool true) e))) = Some v →
              v = VBool false) as Hassignable.
  { intros Ha. rewrite (dict_set_assignable env key (VBool true)) by done.
    rewrite dict_set_assignable
      by (left; simpl; rewrite obj_lookup_set_eq; eauto).
    simpl. split; [done|]. intros k v.
    destruct (decide (key = k)) as [<-|Hne].
    - rewrite obj_lookup_set_eq. by intros [= <-].
    - rewrite !obj_lookup_set_ne by done. apply Hown. }
  destruct (obj_lookup key (own e)) as [b|] eqn:E.
  { apply Hassignable. left. eauto. }
  destruct (find env key (proto e)) as [member| |] eqn:F.
  - apply Hassignable. right. by rewrite F.
  - unfold dict_set. rewrite E, F. simpl. by rewrite E, F.
  - apply Hassignable. right. by rewrite F.
Qed.

Lemma object_run_task_frame t st :
  _isDispatching (run_task env t st) = _isDispatching st
  ∧ (disarmed st → disarmed (run_task env t st)).
Proof.
  unfold run_task.
  destruct (dict_has env (task_key t) (deref (task_prev t) st)); [|done].
  destruct (negb (strict_eq _ _)); [|done].
  set (st1 := store_at _ _ st).
  set (st2 := with_emittingByKey _ st1).
  destruct (object_emit_frame (task_key t)
              (dict_get env (task_key t) (deref (task_model t) st)) st2)
    as [Hflag Hemitting].
  destruct (emit env _ _ st2) as [c st3]. simpl in Hflag, Hemitting.
  assert (_isDispatching st3 = _isDispatching st) as Hflag' by done.
  assert (disarmed st →
          disarmed
            (with_emittingByKey
               (dict_set env (task_key t) (VBool false) (_emittingByKey st3))
               st3)) as Hquiet.
  { intros [Hproto Hown]. rewrite Hemitting. subst st2. simpl.
    by apply disarm_disarmed. }
  by destruct c.
Qed.

Lemma object_drain_frame st :
  _isDispatching (drain env st) = _isDispatching st
  ∧ (disarmed st → disarmed (drain env st)).
Proof.
  unfold drain.
  assert (∀ ts s,
            _isDispatching (foldl (λ s t, run_task env t s) s ts)
            = _isDispatching s
            ∧ (disarmed s → disarmed (foldl (λ s t, run_task env t s) s ts)))
    as Hfold.
  { induction ts as [|t ts IH]; intros s; [done|]. simpl.
    destruct (object_run_task_frame t s) as [H1 H2].
    destruct (IH (run_task env t s)) as [H3 H4].
    rewrite H3, H1. auto. }
  apply (Hfold (microtasks st) (with_microtasks [] st)).
Qed.

Lemma object_seed_frame (f : string → Value) a ks st :
  let st' :=
    foldl (λ st (key : string),
             store_at a (dict_set env (KStr key) (f key) (deref a st)) st)
      st ks in
  _isDispatching st' = _isDispatching st
  ∧ _emittingByKey st' = _emittingByKey st.
Proof.
  revert st. induction ks as [|k ks IH]; intros st; [done|].
  cbv zeta. simpl. by destruct (IH (store_at a
    (dict_set env (KStr k) (f k) (deref a st)) st)) as (-> & ->).
Qed.

Lemma object_bind_frame actions types st :
  _isDispatching (bind_each env actions types st).2 = _isDispatching st
  ∧ _emittingByKey (bind_each env actions types st).2 = _emittingByKey st.
Proof.
  revert st. induction types as [|type types IH]; intros st; [done|].
  cbn [bind_each]. destruct (obj_lookup (KStr type) actions); [|apply IH].
  destruct (_reducersByType st !! KStr type).
  - by destruct (IH (with_reducersByType
                       (<[KStr type := l ++ [r]]> (_reducersByType st)) st))
      as (-> & ->).
  - destruct (find env (KStr type) ObjectPrototype); [done..|].
    by destruct (IH (with_reducersByType
                       (<[KStr type := [r]]> (_reducersByType st)) st))
      as (-> & ->).
Qed.

Lemma reachable_quiet st :
  reachable env st → _isDispatching st = false ∧ disarmed st.
Proof.
  induction 1 as [|model st _ [IH1 IH2]|actions st _ [IH1 IH2]
                  |middleware st _ IH|key listener st _ IH
                  |key edit st _ [IH1 IH2]|depth action st c st' _ [IH1 IH2] Hd
                  |key nextValue st _ [IH1 IH2]|st _ [IH1 IH2]].
  - split; [done|]. split; [done|]. by intros k v [=].
  - unfold initialize. destruct model as [model|].
    + destruct (object_seed_frame (λ key, obj_get (KStr key) model)
                  (next_address st) (Object_keys model)
                  (mkStore (address st) false empty_object []
                     (next_address st) (S (next_address st)) ∅ ∅
                     (<[S (next_address st) := empty_object]>
                        (<[next_address st := empty_object]> (heap st)))
                     (S (S (next_address st))) (microtasks st) (next_task st)
                     (settled st) (emitted st))) as [E1 E2].
      unfold disarmed. rewrite E1, E2. split; [done|]. split; [done|].
      by intros k v [=].
    + split; [done|]. split; [done|]. by intros k v [=].
  - destruct (object_bind_frame actions (Object_keys actions) st) as [E1 E2].
    unfold bind, disarmed. by rewrite E1, E2.
  - done.
  - done.
  - destruct (object_set_frame key edit st) as [E1 E2].
    unfold disarmed. by rewrite E1, E2.
  - split.
    + by eapply object_dispatch_idle.
    + revert Hd. apply (object_dispatch_keeps env disarmed); [| |done].
      * intros k e s Hs. destruct (object_set_frame k e s) as [_ E].
        unfold disarmed. by rewrite E.
      * done.
  - destruct (object_emit_frame key nextValue st) as [E1 E2].
    unfold disarmed. by rewrite E1, E2.
  - destruct (object_drain_frame st) as [E1 E2]. rewrite E1. auto.
Qed.

Lemma inherited_member_truthy k v :
  obj_lookup k Object_prototype_members = Some v → truthy v = true.
Proof.
  unfold Object_prototype_members. simpl.
  repeat (destruct (decide _); [by intros [= <-]|]). done.
Qed.

(** X1.  In every store that a client can reach, the dispatching flag is
    reset and no key is armed: a call of [dispatch] made there is not
    refused as reentrant, and a direct call of [emit] for a string key
    that is not a name inherited from [Object.prototype] throws
    "Can’t emit key '...' without setting it", notifies nobody and changes
    nothing.  For an inherited name, such as ['constructor'], the guard of
    [emit] finds the inherited member and lets the call through to the
    emitter. *)
Theorem reachable_flags_reset (st : Store) :
  reachable env st →
  _isDispatching st = false
  ∧ (∀ s nextValue,
       inherited_name (KStr s) = false →
       emit env (KStr s) nextValue st
       = (Throw (Error ("Can’t emit key '" +:+ s +:+ "' without setting it")),
          st))
  ∧ (∀ k nextValue,
       inherited_name k = true →
       obj_lookup k (own (_emittingByKey st)) = None →
       emit env k nextValue st = super_emit env k nextValue st).
Proof.
  intros Hreach. destruct (reachable_quiet st Hreach) as [Hflag [Hproto Hown]].
  split; [done|]. split.
  - intros s nextValue Hs. unfold emit, dict_get.
    destruct (obj_lookup (KStr s) (own (_emittingByKey st))) as [v|] eqn:E.
    + by rewrite (Hown _ _ E).
    + rewrite Hproto.
      by rewrite (proj2 (find_inherited_name env (KStr s)) Hs).
  - intros k nextValue Hk Hnone. unfold emit, dict_get.
    rewrite Hnone, Hproto, find_ObjectPrototype.
    destruct (obj_lookup k Object_prototype_members) as [v|] eqn:E.
    + by rewrite (inherited_member_truthy k v E).
    + revert Hk. unfold inherited_name, obj_has. rewrite E.
      rewrite (bool_decide_eq_false_2 (is_Some None)) by (intros [? [=]]).
      rewrite orb_false_r. by intros ->.
Qed.
End ReachableFacts.

Lemma reachable_flags_reset_witness :
  let st :=
    Exact.drain Exact.an_environment
      (Exact.set Exact.an_environment (KStr "x") (Lit (VNum 1))
         Exact.new_store).2 in
  Exact.reachable Exact.an_environment st
  ∧ Exact.emit Exact.an_environment (KStr "x") (VNum 2) st
    = (Throw (Error "Can’t emit key 'x' without setting it"), st)
  ∧ Exact.emit Exact.an_environment (KStr "constructor") (VNum 2) st
    = Exact.super_emit Exact.an_environment (KStr "constructor") (VNum 2) st.
Proof.
  cbv zeta.
  assert (Exact.reachable Exact.an_environment
            (Exact.drain Exact.an_environment
               (Exact.set Exact.an_environment (KStr "x") (Lit (VNum 1))
                  Exact.new_store).2)) as Hreach
    by (apply Exact.reachable_drain, Exact.reachable_set,
          Exact.reachable_new).
  split; [exact Hreach|]. split.
  - exact (proj1 (proj2 (reachable_flags_reset Exact.an_environment _ Hreach))
             "x" (VNum 2) eq_refl).
  - refine (proj2 (proj2 (reachable_flags_reset Exact.an_environment _ Hreach))
              (KStr "constructor") (VNum 2) eq_refl _).
    vm_compute. reflexivity.
Defined.
